(** * Chat server: a shallow embedding of [src/chat-server/server.ts]

    The server keeps two MongoDB collections ([User], [Chat]), three REST
    routes ([/register], [/login], [/chatlist]) guarded by a JWT middleware,
    and a Socket.IO hub with four client events.  Collections are lists in
    natural (insertion) order, a document handle is its position in the
    collection, handlers pass the database explicitly and return what they
    send.  Store failures (the [catch] branches answering 500) are outside
    the model: every [find] and [save] succeeds. *)

From stdpp Require Import gmap strings list.

Open Scope string_scope.
Open Scope list_scope.
Open Scope stdpp_scope.

(** ** Schemas *)

(** [mongoose.Schema.Types.ObjectId]; fresh ones are drawn from a counter. *)
Definition ObjectId := nat.

(** [messageSchema]: [timestamp] is milliseconds since the epoch
    ([Date.now]); the sub-document [_id] is not modelled. *)
Record Message := mkMessage {
  sender : string;
  text : string;
  timestamp : Z;
}.

(** [chatSchema], with the document's [_id]. *)
Record Chat := mkChat {
  _id : ObjectId;
  participants : list string;
  messages : list Message;
}.

(** [userSchema]; [password] may be absent from a document. *)
Record User := mkUser {
  email : string;
  password : option string;
  chats : list ObjectId;
}.

#[global] Instance Message_eq_dec : EqDecision Message.
Proof. solve_decision. Defined.
#[global] Instance Chat_eq_dec : EqDecision Chat.
Proof. solve_decision. Defined.
#[global] Instance User_eq_dec : EqDecision User.
Proof. solve_decision. Defined.

(** The database: both collections and the [ObjectId] generator. *)
Record DB := mkDB {
  db_users : list User;
  db_chats : list Chat;
  db_next_id : ObjectId;
}.

Definition empty_db : DB := mkDB [] [] 0.

(** JavaScript truthiness of a string-valued expression that may be
    [undefined]: only a non-empty string is truthy. *)
Definition truthy (s : option string) : bool :=
  match s with
  | Some s => bool_decide (s ≠ "")
  | None => false
  end.

(** ** Queries *)

(** [User.findOne({ email })]: the first user with that email, with its
    position. *)
Definition User_findOne (e : string) (db : DB) : option (nat * User) :=
  list_find (λ u, email u = e) (db_users db).

(** [Chat.findById(chatId)]. *)
Definition Chat_findById (chatId : ObjectId) (db : DB) : option (nat * Chat) :=
  list_find (λ c, _id c = chatId) (db_chats db).

(** [Chat.find({ _id: { $in: ids } })], in natural order. *)
Definition Chat_find_in (ids : list ObjectId) (db : DB) : list Chat :=
  filter (λ c, _id c ∈ ids) (db_chats db).

(** [{ participants: { $all: q } }]: every element of [q] occurs in the
    stored array; MongoDB's [$all] with an empty array matches no
    document. *)
Definition all_match (q stored : list string) : bool :=
  match q with
  | [] => false
  | _ => forallb (λ p, bool_decide (p ∈ stored)) q
  end.

(** [$expr: { $eq: [{ $size: "$participants" }, q.length] }]. *)
Definition size_match (q stored : list string) : bool :=
  bool_decide (length stored = length q).

Definition chat_matches (q : list string) (c : Chat) : Prop :=
  all_match q (participants c) && size_match q (participants c) = true.

#[global] Instance chat_matches_dec q c : Decision (chat_matches q c).
Proof. unfold chat_matches. apply _. Defined.

(** The [Chat.findOne] of [create_chat]. *)
Definition Chat_findOne (q : list string) (db : DB) : option (nat * Chat) :=
  list_find (chat_matches q) (db_chats db).

(** ** Tokens (jsonwebtoken) *)

(** The claims of a token payload that the server or [jwt.verify] reads:
    [email], [iat], and the optional [exp] and [nbf], in seconds. *)
Record JwtPayload := mkPayload {
  jwt_email : option string;
  iat : Z;
  exp : option Z;
  nbf : option Z;
}.

(** The [alg] of a token header. *)
Inductive JwtAlg :=
| HS256
| HS384
| HS512
| other_alg (name : string).

#[global] Instance JwtAlg_eq_dec : EqDecision JwtAlg.
Proof. solve_decision. Defined.

#[global] Instance JwtPayload_eq_dec : EqDecision JwtPayload.
Proof. solve_decision. Defined.

(** One space-separated word of an [Authorization] header: either the
    compact serialisation of a JWT, given by the algorithm of its header,
    its payload and its signature, or any other string. *)
Inductive Word :=
| Raw (s : string)
| Jwt (alg : JwtAlg) (payload : JwtPayload) (signature : string).

#[global] Instance Word_eq_dec : EqDecision Word.
Proof. solve_decision. Defined.

(** The primitives of bcryptjs and the HMAC signatures of jsonwebtoken.
    A bcrypt hash is a 60-character string, so never the empty one. *)
Class Crypto := {
  (** [bcrypt.hash(password, rounds)], the generated salt made explicit *)
  bcrypt_hash : string → nat → string → string;
  (** [bcrypt.compare(password, hash)] *)
  bcrypt_compare : string → string → bool;
  (** HMAC-SHA256 of a payload under a key *)
  hs256 : string → JwtPayload → string;
  (** HMAC-SHA384 and HMAC-SHA512 *)
  hs384 : string → JwtPayload → string;
  hs512 : string → JwtPayload → string;
  bcrypt_hash_nonempty pw rounds salt : bcrypt_hash pw rounds salt ≠ "";
}.

Definition JWT_SECRET : string := "yourSecretKey".

Inductive JwtError :=
| jwt_malformed
| invalid_algorithm
| invalid_signature
| NotBeforeError
| TokenExpiredError.

(** ** HTTP responses *)

Inductive LastMessage :=
| Sent (m : Message)
| Placeholder.          (* { text: '', timestamp: null } *)

Record ChatSummary := mkSummary {
  chatId : ObjectId;
  summary_participants : list string;
  lastMessage : LastMessage;
}.

#[global] Instance LastMessage_eq_dec : EqDecision LastMessage.
Proof. solve_decision. Defined.
#[global] Instance ChatSummary_eq_dec : EqDecision ChatSummary.
Proof. solve_decision. Defined.

Inductive Json :=
| JMessage (message : string)
| JToken (message : string) (token : Word)
| JChatList (chatList : list ChatSummary).

Record Response := mkResponse {
  status : nat;
  json : Json;
}.

(** What a middleware does: answer, or call [next()] with [req.user]. *)
Inductive Middleware :=
| Respond (r : Response)
| Next (user : JwtPayload).

(** [chat.messages.length > 0 ? chat.messages[chat.messages.length - 1]
      : { text: '', timestamp: null }] *)
Definition last_message (c : Chat) : LastMessage :=
  if bool_decide (0 < length (messages c)) then
    match messages c !! (length (messages c) - 1) with
    | Some m => Sent m
    | None => Placeholder
    end
  else Placeholder.

(** One element of [chatList]: the requesting user is filtered out. *)
Definition chatListEntry (self : string) (c : Chat) : ChatSummary :=
  {| chatId := _id c;
     summary_participants := filter (λ p, p ≠ self) (participants c);
     lastMessage := last_message c |}.

(** [structuredChat] of the [chat_created] acknowledgment: all
    participants are listed. *)
Definition structuredChat (c : Chat) : ChatSummary :=
  {| chatId := _id c;
     summary_participants := participants c;
     lastMessage := last_message c |}.

(** The chat list of a user document. *)
Definition chatList (self : string) (u : User) (db : DB) : list ChatSummary :=
  chatListEntry self <$> Chat_find_in (chats u) db.

Section rest.
Context `{Crypto}.

(** The signature of a payload under a key with the algorithm of the
    header; [jwt.verify] called with a string secret and no [algorithms]
    option allows HS256, HS384 and HS512 and no other algorithm. *)
Definition jws_sign (alg : JwtAlg) (key : string) (p : JwtPayload) : option string :=
  match alg with
  | HS256 => Some (hs256 key p)
  | HS384 => Some (hs384 key p)
  | HS512 => Some (hs512 key p)
  | other_alg _ => None
  end.

(** [jwt.sign(payload, secret, { expiresIn })] at clock [now]
    (milliseconds): the default algorithm is HS256, [iat] is in whole
    seconds, no [nbf] is set. *)
Definition jwt_sign (e : string) (secret : string) (expiresIn : Z) (now : Z) : Word :=
  let p := {| jwt_email := Some e;
              iat := (now `div` 1000)%Z;
              exp := Some (now `div` 1000 + expiresIn)%Z;
              nbf := None |} in
  Jwt HS256 p (hs256 secret p).

(** [payload.nbf > clockTimestamp] and [clockTimestamp >= payload.exp],
    each checked only when the claim is present. *)
Definition jwt_not_active (p : JwtPayload) (clockTimestamp : Z) : bool :=
  match nbf p with
  | Some t => bool_decide (clockTimestamp < t)%Z
  | None => false
  end.

Definition jwt_expired (p : JwtPayload) (clockTimestamp : Z) : bool :=
  match exp p with
  | Some t => bool_decide (t ≤ clockTimestamp)%Z
  | None => false
  end.

(** [jwt.verify(token, secret)] at clock [now]: the algorithm must be
    allowed and the signature valid, then the token must be active and
    not expired at the clock's whole second. *)
Definition jwt_verify (token : Word) (secret : string) (now : Z) : JwtError + JwtPayload :=
  match token with
  | Raw _ => inl jwt_malformed
  | Jwt alg p sig =>
      match jws_sign alg secret p with
      | None => inl invalid_algorithm
      | Some valid =>
          if bool_decide (sig = valid) then
            if jwt_not_active p (now `div` 1000) then inl NotBeforeError
            else if jwt_expired p (now `div` 1000) then inl TokenExpiredError
            else inr p
          else inl invalid_signature
      end
  end.

(** [verifyToken]: [authorization] is the header already split at
    spaces, [None] when the header is absent. *)
Definition verifyToken (authorization : option (list Word)) (now : Z) : Middleware :=
  match authorization ≫= (λ ws, ws !! 1) with
  | None | Some (Raw "") =>
      Respond (mkResponse 401 (JMessage "No token provided"))
  | Some token =>
      match jwt_verify token JWT_SECRET now with
      | inr decoded =>
          if truthy (jwt_email decoded) then Next decoded
          else Respond (mkResponse 403 (JMessage "Invalid token"))
      | inl _ => Respond (mkResponse 403 (JMessage "Invalid token"))
      end
  end.

(** [POST /register]; [salt] is the salt bcrypt generates. *)
Definition register (e pw : string) (salt : string) (db : DB) : DB * Response :=
  if bool_decide (e = "") || bool_decide (pw = "") then
    (db, mkResponse 400 (JMessage "Required fields"))
  else
    match User_findOne e db with
    | Some _ => (db, mkResponse 400 (JMessage "User exists"))
    | None =>
        let hashed := bcrypt_hash pw 10 salt in
        let user := {| email := e; password := Some hashed; chats := [] |} in
        (mkDB (db_users db ++ [user]) (db_chats db) (db_next_id db),
         mkResponse 201 (JMessage "Registered"))
    end.

(** [POST /register] up to the answer of its [User.findOne]: the answer
    it sends at once, or [None] when it goes on to hash and save. *)
Definition register_check (e pw : string) (db : DB) : option Response :=
  if bool_decide (e = "") || bool_decide (pw = "") then
    Some (mkResponse 400 (JMessage "Required fields"))
  else
    match User_findOne e db with
    | Some _ => Some (mkResponse 400 (JMessage "User exists"))
    | None => None
    end.

(** The rest of [POST /register] once the check has passed: the hash,
    [user.save()] on the database as it is by then, and the answer. *)
Definition register_save (e pw : string) (salt : string) (db : DB) : DB * Response :=
  let hashed := bcrypt_hash pw 10 salt in
  let user := {| email := e; password := Some hashed; chats := [] |} in
  (mkDB (db_users db ++ [user]) (db_chats db) (db_next_id db),
   mkResponse 201 (JMessage "Registered")).

(** [POST /login] at clock [now]. *)
Definition login (e pw : string) (now : Z) (db : DB) : DB * Response :=
  match User_findOne e db with
  | None => (db, mkResponse 404 (JMessage "User not found"))
  | Some (_, user) =>
      match password user with
      | Some h =>
          if bool_decide (h ≠ "") then
            if bcrypt_compare pw h then
              (db, mkResponse 200
                     (JToken "Login successful" (jwt_sign e JWT_SECRET 3600 now)))
            else (db, mkResponse 401 (JMessage "Invalid password"))
          else (db, mkResponse 404 (JMessage "User not found"))
      | None => (db, mkResponse 404 (JMessage "User not found"))
      end
  end.

(** The handler of [GET /chatlist], after the middleware. *)
Definition chatlist_handler (req_user : JwtPayload) (db : DB) : DB * Response :=
  let self := default "" (jwt_email req_user) in
  match User_findOne self db with
  | None => (db, mkResponse 404 (JMessage "User not found"))
  | Some (_, user) => (db, mkResponse 200 (JChatList (chatList self user db)))
  end.

(** [GET /chatlist] with its middleware. *)
Definition get_chatlist (authorization : option (list Word)) (now : Z) (db : DB)
  : DB * Response :=
  match verifyToken authorization now with
  | Respond r => (db, r)
  | Next user => chatlist_handler user db
  end.
End rest.

(** ** The Socket.IO hub *)

(** A connection ([socket.id]). *)
Definition Conn := nat.

(** Room names: [socket.join(email)] and [socket.join(chatId)].  In
    Socket.IO both are names in one namespace of strings; here the room of
    a chat id and the room of an email are kept apart, which leaves out a
    [register_socket] whose email is the text of a chat id. *)
Inductive Room :=
| ChatRoom (chatId : ObjectId)
| UserRoom (email : string).

#[global] Instance Room_eq_dec : EqDecision Room.
Proof. solve_decision. Defined.

#[global] Program Instance Room_countable : Countable Room :=
  inj_countable'
    (λ r, match r with ChatRoom i => inl i | UserRoom e => inr e end)
    (λ s, match s with inl i => ChatRoom i | inr e => UserRoom e end) _.
Next Obligation. by intros []. Qed.

Inductive ServerEvent :=
| receive_message (m : Message)
| chatlist_updated (l : list ChatSummary)
| chat_created (s : ChatSummary).

(** [io.to(room).emit(...)] and [socket.emit(...)]. *)
Inductive Emit :=
| io_to (r : Room) (ev : ServerEvent)
| socket_emit (sock : Conn) (ev : ServerEvent).

#[global] Instance ServerEvent_eq_dec : EqDecision ServerEvent.
Proof. solve_decision. Defined.
#[global] Instance Emit_eq_dec : EqDecision Emit.
Proof. solve_decision. Defined.

(** The connections of a room. *)
Definition members (rooms : gmap Room (gset Conn)) (r : Room) : gset Conn :=
  default ∅ (rooms !! r).

(** [socket.join(r)]. *)
Definition join (sock : Conn) (r : Room) (rooms : gmap Room (gset Conn))
  : gmap Room (gset Conn) :=
  <[r := {[sock]} ∪ members rooms r]> rooms.

(** The connections an emission is delivered to. *)
Definition recipients (rooms : gmap Room (gset Conn)) (e : Emit) : gset Conn :=
  match e with
  | io_to r _ => members rooms r
  | socket_emit sock _ => {[sock]}
  end.

Definition event_of (e : Emit) : ServerEvent :=
  match e with io_to _ ev | socket_emit _ ev => ev end.

Definition is_chat_created (e : Emit) : bool :=
  match event_of e with chat_created _ => true | _ => false end.

(** [send_message]: [t_push] is the clock when the sub-document is built
    (the schema default [Date.now]), [t_emit] the clock of the [new Date()]
    in the broadcast, read after the save. *)
Definition send_message (chatId : ObjectId) (sender text : string)
    (t_push t_emit : Z) (db : DB) : DB * list Emit :=
  match Chat_findById chatId db with
  | None => (db, [])
  | Some (i, chat) =>
      let message := mkMessage sender text t_push in
      let chat := mkChat (_id chat) (participants chat) (messages chat ++ [message]) in
      (mkDB (db_users db) (<[i := chat]> (db_chats db)) (db_next_id db),
       [io_to (ChatRoom chatId)
          (receive_message (mkMessage sender text t_emit))])
  end.

(** The payload of a [send_message] event whose [chatId] Mongoose casts
    to an ObjectId, given by that id ([send_message_event] below takes the
    [chatId] as it arrives); the handler destructures
    [{ chatId, sender, text }] and nothing else. *)
Record SendMessagePayload := mkSend {
  payload_chatId : ObjectId;
  payload_sender : string;
  payload_text : string;
  payload_image : option string;
}.

Definition on_send_message (p : SendMessagePayload) (t_push t_emit : Z) (db : DB)
  : DB * list Emit :=
  send_message (payload_chatId p) (payload_sender p) (payload_text p) t_push t_emit db.




(** One iteration of the linking loop of [create_chat]. *)
Definition link_participant (cid : ObjectId) (db : DB) (e : string) : DB :=
  match User_findOne e db with
  | Some (i, user) =>
      if bool_decide (cid ∈ chats user) then db
      else
        let user := mkUser (email user) (password user) (chats user ++ [cid]) in
        mkDB (<[i := user]> (db_users db)) (db_chats db) (db_next_id db)
  | None => db
  end.

(** The first half of [create_chat]: find a chat with these participants
    or create and link one. *)
Definition findOrCreateChat (ps : list string) (db : DB) : Chat * DB :=
  match Chat_findOne ps db with
  | Some (_, existing) => (existing, db)
  | None =>
      let existing := mkChat (db_next_id db) ps [] in
      let db := mkDB (db_users db) (db_chats db ++ [existing]) (S (db_next_id db)) in
      (existing, foldl (link_participant (_id existing)) db ps)
  end.

(** One iteration of the fan-out loop of [create_chat]. *)
Definition push_chatlist (db : DB) (e : string) : list Emit :=
  match User_findOne e db with
  | Some (_, user) => [io_to (UserRoom e) (chatlist_updated (chatList e user db))]
  | None => []
  end.

(** [create_chat] received on connection [sock]. *)
Definition create_chat (sock : Conn) (ps : list string) (db : DB) : DB * list Emit :=
  let '(existing, db) := findOrCreateChat ps db in
  (db, (ps ≫= push_chatlist db)
         ++ [socket_emit sock (chat_created (structuredChat existing))]).

(** ** The server as a transition system *)

Record Hub := mkHub {
  hub_db : DB;
  hub_rooms : gmap Room (gset Conn);
}.

Definition init_hub : Hub := mkHub empty_db ∅.

(** What the server receives: HTTP requests, and socket events on a
    connection, each with the clock and salt readings its handler takes.
    The chat ids of [join_chat] and of [on_send] are ids that cast. *)
Inductive Request :=
| POST_register (e pw salt : string)
| POST_login (e pw : string) (now : Z)
| GET_chatlist (authorization : option (list Word)) (now : Z)
| register_socket (sock : Conn) (e : string)
| join_chat (sock : Conn) (chatId : ObjectId)
| on_send (sock : Conn) (p : SendMessagePayload) (t_push t_emit : Z)
| on_create_chat (sock : Conn) (ps : list string).

Inductive Output :=
| Http (r : Response)
| Emits (es : list Emit).

Section server.
Context `{Crypto}.

(** One request handled from its start to its end.  The transition
    system runs the requests one after the other: handlers that overlap,
    suspended at an [await] between what they read and what they write,
    are not part of it ([register_check] and [register_save] above split
    one handler at its [await]). *)
Definition handle (rq : Request) (h : Hub) : Hub * Output :=
  match rq with
  | POST_register e pw salt =>
      let '(db, r) := register e pw salt (hub_db h) in
      (mkHub db (hub_rooms h), Http r)
  | POST_login e pw now =>
      let '(db, r) := login e pw now (hub_db h) in
      (mkHub db (hub_rooms h), Http r)
  | GET_chatlist a now =>
      let '(db, r) := get_chatlist a now (hub_db h) in
      (mkHub db (hub_rooms h), Http r)
  | register_socket sock e =>
      (mkHub (hub_db h) (join sock (UserRoom e) (hub_rooms h)), Emits [])
  | join_chat sock chatId =>
      (mkHub (hub_db h) (join sock (ChatRoom chatId) (hub_rooms h)), Emits [])
  | on_send sock p t_push t_emit =>
      let '(db, es) := on_send_message p t_push t_emit (hub_db h) in
      (mkHub db (hub_rooms h), Emits es)
  | on_create_chat sock ps =>
      let '(db, es) := create_chat sock ps (hub_db h) in
      (mkHub db (hub_rooms h), Emits es)
  end.

(** Running a list of requests from a state. *)
Definition run (rqs : list Request) (h : Hub) : Hub :=
  foldl (λ h rq, (handle rq h).1) h rqs.

Inductive reachable : Hub → Prop :=
| reachable_init : reachable init_hub
| reachable_step h rq : reachable h → reachable (handle rq h).1.
End server.

(** ** Well-formed databases *)

Record wf_db (db : DB) : Prop := {
  wf_ids_nodup : NoDup (_id <$> db_chats db);
  wf_ids_bound : ∀ c, c ∈ db_chats db → _id c < db_next_id db;
  wf_emails_nodup : NoDup (email <$> db_users db);
  wf_emails_nonempty : ∀ u, u ∈ db_users db → email u ≠ "";
  wf_passwords : ∀ u, u ∈ db_users db → truthy (password u) = true;
  wf_links : ∀ u cid, u ∈ db_users db → cid ∈ chats u →
             ∃ c, c ∈ db_chats db ∧ _id c = cid ∧ email u ∈ participants c;
}.

(** ** Relations between states, for the properties over runs *)

(** [user.chats.push(cid)] on a user document. *)
Definition add_chat (cid : ObjectId) (u : User) : User :=
  mkUser (email u) (password u) (chats u ++ [cid]).

(** The same chat later: same id, same participants, messages appended. *)
Definition chat_extends (c c' : Chat) : Prop :=
  _id c' = _id c ∧ participants c' = participants c
  ∧ messages c `prefix_of` messages c'.

(** The same user later: same email, same password, chats appended. *)
Definition user_extends (u u' : User) : Prop :=
  email u' = email u ∧ password u' = password u
  ∧ chats u `prefix_of` chats u'.

(** Every document of [db] is still in [db'], at its position. *)
Definition db_extends (db db' : DB) : Prop :=
  (∀ i c, db_chats db !! i = Some c →
     ∃ c', db_chats db' !! i = Some c' ∧ chat_extends c c')
  ∧ (∀ i u, db_users db !! i = Some u →
       ∃ u', db_users db' !! i = Some u' ∧ user_extends u u').

(** What the linking loop of [create_chat] over the participants [ps]
    makes of a user document: the chat is pushed on the users whose email
    is in [ps]. *)
Definition linked (cid : ObjectId) (ps : list string) (u : User) : User :=
  if bool_decide (email u ∈ ps) then add_chat cid u else u.

(** No user document lists a chat twice. *)
Definition links_nodup (db : DB) : Prop :=
  ∀ u, u ∈ db_users db → NoDup (chats u).

(** The [send_message] event, received on [sock], that stores [m] in chat
    [cid] and is broadcast at clock [t_emit]. *)
Definition send_request (sock : Conn) (cid : ObjectId) (t_emit : Message → Z)
    (m : Message) : Request :=
  on_send sock (mkSend cid (sender m) (text m) None) (timestamp m) (t_emit m).

(** ** Stand-ins to run the server on examples *)

(** A toy [Crypto]: the hash keeps the first eight characters of the
    password (bcrypt itself reads no more than 72 bytes), the signature
    is the key followed by the signed email. *)
Definition toy_crypto : Crypto :=
  {| bcrypt_hash pw rounds salt := "$2b$" +:+ String.substring 0 8 pw;
     bcrypt_compare pw h := bool_decide (h = "$2b$" +:+ String.substring 0 8 pw);
     hs256 key p := key +:+ "." +:+ default "" (jwt_email p);
     hs384 key p := key +:+ ".384." +:+ default "" (jwt_email p);
     hs512 key p := key +:+ ".512." +:+ default "" (jwt_email p);
     bcrypt_hash_nonempty pw rounds salt := ltac:(discriminate) |}.

Definition u1 : string := "u1@x.com".
Definition u2 : string := "u2@x.com".
Definition u3 : string := "u3@x.com".

(** [u1] is registered, [u2] is not; connection 1 listens for [u1],
    connection 7 for [u2]. *)
Definition before_chat : Hub :=
  @run toy_crypto
    [POST_register u1 "pw" "salt1"; register_socket 1 u1; register_socket 7 u2]
    init_hub.

(** [u1] has created a chat with [u2] and joined its room. *)
Definition one_chat : Hub :=
  @run toy_crypto [on_create_chat 1 [u1; u2]; join_chat 1 0] before_chat.

(** Two registered users, logged in, each with a connection listening on
    its email. *)
Definition two_users : Hub :=
  @run toy_crypto
    [POST_register u1 "pw" "salt1"; POST_register u2 "pw" "salt2";
     POST_login u1 "pw" 1000; POST_login u2 "pw" 1000;
     register_socket 1 u1; register_socket 2 u2]
    init_hub.

(** Requests that follow [one_chat]: a message, a registration, a second
    [create_chat] for the same two participants. *)
Definition later_requests : list Request :=
  [on_send 1 (mkSend 0 u1 "hi" None) 2000 2003;
   POST_register u2 "pw" "salt2";
   on_create_chat 2 [u2; u1]].

(** [u2] registers after the chat with [u1] was created. *)
Definition late_registration : Hub :=
  @run toy_crypto [POST_register u2 "pw" "salt2"] one_chat.

(** * Properties *)

(** ** Matching participant lists *)

Lemma all_match_spec (q stored : list string) :
  all_match q stored = true ↔ q ≠ [] ∧ ∀ p, p ∈ q → p ∈ stored.
Proof.
  destruct q as [|a q]; [simpl; split; [done|by intros [? _]]|].
  unfold all_match. rewrite <-Is_true_true, forallb_True, Forall_forall.
  split.
  - intros Hall. split; [done|]. intros p Hp.
    specialize (Hall p Hp). by case_bool_decide.
  - intros [_ Hall] p Hp. specialize (Hall p Hp). by case_bool_decide.
Qed.

Lemma chat_matches_spec (q : list string) (c : Chat) :
  chat_matches q c ↔
    q ≠ [] ∧ (∀ p, p ∈ q → p ∈ participants c)
    ∧ length (participants c) = length q.
Proof.
  unfold chat_matches, size_match.
  rewrite andb_true_iff, all_match_spec, bool_decide_eq_true. tauto.
Qed.

Lemma chat_matches_perm (q q' : list string) (c : Chat) :
  q ≡ₚ q' → chat_matches q c ↔ chat_matches q' c.
Proof.
  intros Hp. rewrite !chat_matches_spec.
  rewrite (Permutation_length Hp).
  assert (q = [] ↔ q' = []) as Hnil.
  { split; intros ->; [symmetry in Hp|]; by apply Permutation_nil_r in Hp. }
  assert (∀ p, p ∈ q ↔ p ∈ q') as Hin by (intros p; by rewrite Hp).
  rewrite Hnil. by setoid_rewrite Hin.
Qed.

Lemma chat_matches_self (i : ObjectId) (q : list string) (ms : list Message) :
  q ≠ [] → chat_matches q (mkChat i q ms).
Proof. intros. apply chat_matches_spec. simpl. auto. Qed.

(** On duplicate-free requests the match is equality of participant sets
    with equal sizes, whatever the order. *)
Lemma chat_matches_NoDup (q : list string) (c : Chat) :
  NoDup q → q ≠ [] → chat_matches q c ↔ participants c ≡ₚ q.
Proof.
  intros Hnd Hne. rewrite chat_matches_spec. split.
  - intros (_ & Hsub & Hlen). symmetry.
    apply submseteq_length_Permutation; [|lia].
    by apply NoDup_submseteq.
  - intros Hp. split_and!; [done| |by rewrite Hp].
    intros p. by rewrite Hp.
Qed.

Lemma Chat_findOne_perm (q q' : list string) (db : DB) :
  q ≡ₚ q' → Chat_findOne q db = Chat_findOne q' db.
Proof.
  intros Hp. unfold Chat_findOne. apply list_find_ext.
  intros c. by apply chat_matches_perm.
Qed.

(** ** The linking loop *)

Lemma link_participant_chats cid db e :
  db_chats (link_participant cid db e) = db_chats db.
Proof.
  unfold link_participant.
  destruct (User_findOne e db) as [[i u]|]; [|done]. by case_bool_decide.
Qed.

Lemma link_participant_next_id cid db e :
  db_next_id (link_participant cid db e) = db_next_id db.
Proof.
  unfold link_participant.
  destruct (User_findOne e db) as [[i u]|]; [|done]. by case_bool_decide.
Qed.

Lemma link_participant_emails cid db e :
  email <$> db_users (link_participant cid db e) = email <$> db_users db.
Proof.
  unfold link_participant.
  destruct (User_findOne e db) as [[i u]|] eqn:Hf; [|done].
  case_bool_decide; [done|]. simpl.
  apply list_find_Some in Hf as (Hi & _ & _).
  rewrite list_fmap_insert. simpl. apply list_insert_id.
  by rewrite list_lookup_fmap, Hi.
Qed.

Lemma links_chats cid ps db :
  db_chats (foldl (link_participant cid) db ps) = db_chats db.
Proof.
  revert db. induction ps as [|e ps IH]; intros db; simpl; [done|].
  by rewrite IH, link_participant_chats.
Qed.

Lemma links_next_id cid ps db :
  db_next_id (foldl (link_participant cid) db ps) = db_next_id db.
Proof.
  revert db. induction ps as [|e ps IH]; intros db; simpl; [done|].
  by rewrite IH, link_participant_next_id.
Qed.

Lemma links_emails cid ps db :
  email <$> db_users (foldl (link_participant cid) db ps) = email <$> db_users db.
Proof.
  revert db. induction ps as [|e ps IH]; intros db; simpl; [done|].
  by rewrite IH, link_participant_emails.
Qed.

(** Whether an email is registered depends on the emails only. *)
Lemma User_findOne_None (e : string) (db : DB) :
  User_findOne e db = None ↔ e ∉ email <$> db_users db.
Proof.
  unfold User_findOne. rewrite list_find_None, Forall_forall, list_elem_of_fmap.
  split.
  - intros Hall (u & -> & Hu). by apply (Hall u).
  - intros Hn u Hu He. apply Hn. eauto.
Qed.

Lemma User_findOne_Some_email (e : string) (db : DB) i u :
  User_findOne e db = Some (i, u) → email u = e ∧ db_users db !! i = Some u.
Proof. intros (? & ? & _)%list_find_Some. done. Qed.

(** ** Well-formedness is an invariant *)

Lemma elem_of_insert_inv {A} (l : list A) (i : nat) (x y : A) :
  y ∈ <[i:=x]> l → y = x ∨ y ∈ l.
Proof.
  intros [j Hj]%list_elem_of_lookup.
  apply list_lookup_insert_Some in Hj as [(_ & -> & _)|[_ Hj]]; [by left|].
  right. by eapply list_elem_of_lookup_2.
Qed.

Lemma elem_of_insert_other {A} (l : list A) (i : nat) (x x' y : A) :
  l !! i = Some x → y ∈ l → y = x ∨ y ∈ <[i:=x']> l.
Proof.
  intros Hi [j Hj]%list_elem_of_lookup.
  destruct (decide (i = j)) as [->|Hne]; [left; congruence|].
  right. apply (list_elem_of_lookup_2 _ j). by rewrite list_lookup_insert_ne.
Qed.

Lemma wf_empty : wf_db empty_db.
Proof.
  split; simpl.
  - constructor.
  - by intros c ?%elem_of_nil.
  - constructor.
  - by intros u ?%elem_of_nil.
  - by intros u ?%elem_of_nil.
  - by intros u cid ?%elem_of_nil.
Qed.

Lemma wf_link_participant cid db e c :
  wf_db db → c ∈ db_chats db → _id c = cid → e ∈ participants c →
  wf_db (link_participant cid db e).
Proof.
  intros Hwf Hc Hid He.
  pose proof (link_participant_emails cid db e) as Hemails.
  unfold link_participant in *.
  destruct (User_findOne e db) as [[i u]|] eqn:Hf; [|done].
  case_bool_decide as Hin; [done|].
  apply User_findOne_Some_email in Hf as [Hu Hi].
  destruct Hwf as [Hnd Hb Hend Hne Hpw Hl].
  split; simpl in *; [done|done|by rewrite Hemails| | |].
  - intros u' [->|Hu']%elem_of_insert_inv; simpl; [|by apply Hne].
    apply Hne. by eapply list_elem_of_lookup_2.
  - intros u' [->|Hu']%elem_of_insert_inv; simpl; [|by apply Hpw].
    apply Hpw. by eapply list_elem_of_lookup_2.
  - intros u' cid' [->|Hu']%elem_of_insert_inv; simpl; [|by apply Hl].
    intros [Hold| ->%list_elem_of_singleton]%elem_of_app.
    + apply (Hl u); [by eapply list_elem_of_lookup_2|done].
    + exists c. by rewrite Hu.
Qed.

Lemma wf_links_fold cid ps db c :
  wf_db db → c ∈ db_chats db → _id c = cid →
  (∀ e, e ∈ ps → e ∈ participants c) →
  wf_db (foldl (link_participant cid) db ps).
Proof.
  revert db. induction ps as [|e ps IH]; intros db Hwf Hc Hid Hps; simpl; [done|].
  apply IH.
  - apply (wf_link_participant _ _ _ c); auto. apply Hps. by left.
  - by rewrite link_participant_chats.
  - done.
  - intros e' He'. apply Hps. by right.
Qed.

Lemma wf_findOrCreateChat ps db :
  wf_db db → wf_db (findOrCreateChat ps db).2.
Proof.
  intros Hwf. unfold findOrCreateChat.
  destruct (Chat_findOne ps db) as [[i c]|]; [done|]. simpl.
  apply (wf_links_fold _ _ _ (mkChat (db_next_id db) ps [])); simpl; [|set_solver|done|done].
  destruct Hwf as [Hnd Hb Hend Hne Hpw Hl]. split; simpl; [| |done|done|done|].
  - rewrite fmap_app. apply NoDup_app. split_and!; [done| |apply NoDup_singleton].
    intros x (c & -> & Hc)%list_elem_of_fmap Heq%list_elem_of_singleton.
    apply Hb in Hc. simpl in Heq. lia.
  - intros c [Hc| ->%list_elem_of_singleton]%elem_of_app; simpl; [|lia].
    apply Hb in Hc. lia.
  - intros u cid Hu Hcid. destruct (Hl u cid Hu Hcid) as (c & ? & ? & ?).
    exists c. split_and!; [|done..]. apply elem_of_app. by left.
Qed.

Lemma wf_create_chat sock ps db :
  wf_db db → wf_db (create_chat sock ps db).1.
Proof.
  intros Hwf. unfold create_chat.
  pose proof (wf_findOrCreateChat ps db Hwf) as Hwf'.
  by destruct (findOrCreateChat ps db).
Qed.

Lemma wf_send_message chatId sender text t_push t_emit db :
  wf_db db → wf_db (send_message chatId sender text t_push t_emit db).1.
Proof.
  intros Hwf. unfold send_message.
  destruct (Chat_findById chatId db) as [[i c]|] eqn:Hf; [|done]. simpl.
  apply list_find_Some in Hf as (Hi & _ & _).
  destruct Hwf as [Hnd Hb Hend Hne Hpw Hl].
  assert (_id <$> <[i:=mkChat (_id c) (participants c)
                          (messages c ++ [mkMessage sender text t_push])]>
                    (db_chats db) = _id <$> db_chats db) as Hids.
  { rewrite list_fmap_insert. simpl. apply list_insert_id.
    by rewrite list_lookup_fmap, Hi. }
  split; simpl; [by rewrite Hids| |done|done|done|].
  - intros c' [->|Hc']%elem_of_insert_inv; simpl; [|by apply Hb].
    apply Hb. by eapply list_elem_of_lookup_2.
  - intros u cid Hu Hcid. destruct (Hl u cid Hu Hcid) as (c' & Hc' & ? & ?).
    destruct (elem_of_insert_other _ i c
                (mkChat (_id c) (participants c)
                   (messages c ++ [mkMessage sender text t_push])) c' Hi Hc')
      as [->|Hc''].
    + eexists. split; [apply list_elem_of_insert; by eapply lookup_lt_Some|done].
    + by exists c'.
Qed.

Section invariant.
Context `{Crypto}.

Lemma wf_register e pw salt db :
  wf_db db → wf_db (register e pw salt db).1.
Proof.
  intros Hwf. unfold register.
  destruct (bool_decide (e = "") || bool_decide (pw = "")) eqn:Hguard; [done|].
  destruct (User_findOne e db) as [[i u]|] eqn:Hf; [done|]. simpl.
  apply orb_false_iff in Hguard as [He%bool_decide_eq_false _].
  apply User_findOne_None in Hf.
  destruct Hwf as [Hnd Hb Hend Hne Hpw Hl]. split; simpl; [done|done| | | |].
  - rewrite fmap_app. apply NoDup_app. split_and!; [done| |apply NoDup_singleton].
    by intros x Hx ->%list_elem_of_singleton.
  - intros u [Hu| ->%list_elem_of_singleton]%elem_of_app; [by apply Hne|done].
  - intros u [Hu| ->%list_elem_of_singleton]%elem_of_app; [by apply Hpw|].
    simpl. apply bool_decide_eq_true. apply bcrypt_hash_nonempty.
  - intros u cid [Hu| ->%list_elem_of_singleton]%elem_of_app; [by apply Hl|].
    by intros ?%elem_of_nil.
Qed.

Lemma login_db e pw now db : (login e pw now db).1 = db.
Proof.
  unfold login. destruct (User_findOne e db) as [[i u]|]; [|done].
  destruct (password u); [|done].
  case_bool_decide; [|done]. by destruct (bcrypt_compare _ _).
Qed.

Lemma get_chatlist_db a now db : (get_chatlist a now db).1 = db.
Proof.
  unfold get_chatlist, chatlist_handler.
  destruct (verifyToken a now); [done|].
  by destruct (User_findOne _ db) as [[i u]|].
Qed.

Lemma wf_handle rq h : wf_db (hub_db h) → wf_db (hub_db (handle rq h).1).
Proof.
  intros Hwf. destruct rq; simpl.
  - pose proof (wf_register e pw salt _ Hwf). by destruct (register _ _ _ _).
  - pose proof (login_db e pw now (hub_db h)) as Hl.
    destruct (login _ _ _ _); simpl in *. by subst.
  - pose proof (get_chatlist_db authorization now (hub_db h)) as Hl.
    destruct (get_chatlist _ _ _); simpl in *. by subst.
  - done.
  - done.
  - unfold on_send_message.
    pose proof (wf_send_message (payload_chatId p) (payload_sender p)
                  (payload_text p) t_push t_emit _ Hwf).
    by destruct (send_message _ _ _ _ _ _).
  - pose proof (wf_create_chat sock ps _ Hwf). by destruct (create_chat _ _ _).
Qed.

(** Every state the server reaches from the empty database is
    well formed. *)
Lemma reachable_wf h : reachable h → wf_db (hub_db h).
Proof.
  induction 1 as [|h rq _ IH]; [apply wf_empty|by apply wf_handle].
Qed.

Lemma reachable_run rqs h : reachable h → reachable (run rqs h).
Proof.
  revert h. induction rqs as [|rq rqs IH]; intros h Hr; [done|].
  apply IH. by constructor.
Qed.
End invariant.

(** ** Finding or creating a chat *)

Lemma wf_id_inj db c c' :
  wf_db db → c ∈ db_chats db → c' ∈ db_chats db → _id c = _id c' → c = c'.
Proof.
  intros [Hnd _ _ _ _ _]. revert Hnd.
  induction (db_chats db) as [|x l IH]; [by intros _ ?%elem_of_nil|].
  rewrite fmap_cons, NoDup_cons. intros [Hx Hnd] Hc Hc' Hid.
  apply elem_of_cons in Hc as [->|Hc], Hc' as [->|Hc']; auto.
  - destruct Hx. rewrite Hid. by apply list_elem_of_fmap_2.
  - destruct Hx. rewrite <-Hid. by apply list_elem_of_fmap_2.
Qed.

(** The chat that [findOrCreateChat] returns is stored, and has as many
    participants as were asked for. *)
Lemma findOrCreateChat_stored ps db c db1 :
  findOrCreateChat ps db = (c, db1) →
  c ∈ db_chats db1 ∧ length (participants c) = length ps.
Proof.
  unfold findOrCreateChat.
  destruct (Chat_findOne ps db) as [[i c0]|] eqn:Hf; intros [= <- <-].
  - apply list_find_Some in Hf as (Hi & Hm & _).
    apply chat_matches_spec in Hm as (_ & _ & Hlen).
    split; [by eapply list_elem_of_lookup_2|done].
  - rewrite links_chats. simpl. split; [|done].
    apply elem_of_app. right. by left.
Qed.

Lemma findOrCreateChat_fresh ps db c db1 :
  wf_db db → Chat_findOne ps db = None → findOrCreateChat ps db = (c, db1) →
  ∀ c0, c0 ∈ db_chats db → _id c0 ≠ _id c.
Proof.
  intros Hwf Hf. unfold findOrCreateChat. rewrite Hf. intros [= <- <-] c0 Hc0.
  apply (wf_ids_bound _ Hwf) in Hc0. simpl. lia.
Qed.

(** Once a chat has been returned for a non-empty request, any reordering
    of the request finds that chat and changes nothing. *)
Lemma findOrCreateChat_again ps ps' db c db1 :
  ps ≠ [] → ps' ≡ₚ ps →
  findOrCreateChat ps db = (c, db1) → findOrCreateChat ps' db1 = (c, db1).
Proof.
  intros Hne Hp. unfold findOrCreateChat at 1.
  destruct (Chat_findOne ps db) as [[i c0]|] eqn:Hf; intros [= <- <-].
  - unfold findOrCreateChat. by rewrite (Chat_findOne_perm ps' ps), Hf.
  - unfold findOrCreateChat. rewrite (Chat_findOne_perm ps' ps) by done.
    unfold Chat_findOne in *. rewrite links_chats. simpl.
    rewrite list_find_app_r by done. simpl.
    rewrite decide_True by by apply chat_matches_self. done.
Qed.

(** A request with more participants than a duplicate-free one never
    returns the same chat. *)
Lemma findOrCreateChat_superset ps ps' db c c' db1 db2 :
  wf_db db → NoDup ps →
  (∀ p, p ∈ ps → p ∈ ps') → ¬ (∀ p, p ∈ ps' → p ∈ ps) →
  findOrCreateChat ps db = (c, db1) → findOrCreateChat ps' db1 = (c', db2) →
  _id c' ≠ _id c.
Proof.
  intros Hwf Hnd Hsub Hstrict H1 H2.
  assert (wf_db db1) as Hwf1.
  { pose proof (wf_findOrCreateChat ps db Hwf) as Hw. by rewrite H1 in Hw. }
  destruct (findOrCreateChat_stored _ _ _ _ H1) as [Hc Hlen].
  destruct (findOrCreateChat_stored _ _ _ _ H2) as [Hc' Hlen'].
  assert (length ps ≠ length ps') as Hsize.
  { intros Heq. apply Hstrict. intros p Hp.
    assert (ps ≡ₚ ps') as Hperm; [|by rewrite Hperm].
    apply submseteq_length_Permutation; [by apply NoDup_submseteq|lia]. }
  destruct (Chat_findOne ps' db1) as [[i c0]|] eqn:Hf.
  - unfold findOrCreateChat in H2. rewrite Hf in H2. injection H2 as <- <-.
    intros Hid. apply (wf_id_inj db1) in Hid; [|done..]. subst c0. lia.
  - intros Hid. by eapply (findOrCreateChat_fresh ps' db1 c' db2).
Qed.

(** C1, as amended.  For every non-empty participant list [ps]: once
    [findOrCreateChat] has returned a chat for [ps], calling it again with
    [ps], in any order, returns that same chat and leaves the database as
    it is; when [ps] has no duplicates, a request whose participants
    strictly include those of [ps] returns a chat with another id, and a
    stored chat matches [ps] exactly when its participants are a
    reordering of [ps] (same set, same size). *)
Theorem findOrCreateChat_dedup ps db c db1 :
  wf_db db → ps ≠ [] → findOrCreateChat ps db = (c, db1) →
  (∀ ps', ps' ≡ₚ ps → findOrCreateChat ps' db1 = (c, db1))
  ∧ (NoDup ps → ∀ ps' c' db2,
       (∀ p, p ∈ ps → p ∈ ps') → ¬ (∀ p, p ∈ ps' → p ∈ ps) →
       findOrCreateChat ps' db1 = (c', db2) → _id c' ≠ _id c)
  ∧ (NoDup ps → ∀ c0, chat_matches ps c0 ↔ participants c0 ≡ₚ ps).
Proof.
  intros Hwf Hne Hfc. split_and!.
  - intros ps' Hp. by apply (findOrCreateChat_again ps ps' db).
  - intros Hnd ps' c' db2 Hsub Hstrict Hfc'.
    by apply (findOrCreateChat_superset ps ps' db c c' db1 db2).
  - intros Hnd c0. by apply chat_matches_NoDup.
Qed.

Lemma findOrCreateChat_dedup_witness :
  ∃ c db1,
    findOrCreateChat [u1; u2] empty_db = (c, db1)
    ∧ findOrCreateChat [u2; u1] db1 = (c, db1)
    ∧ _id (findOrCreateChat [u1; u2; u3] db1).1 ≠ _id c.
Proof.
  destruct (findOrCreateChat [u1; u2] empty_db) as [c db1] eqn:E.
  assert ([u1; u2] ≠ []) as Hne by discriminate.
  assert (NoDup [u1; u2]) as Hnd.
  { apply (bool_decide_unpack _). vm_compute. exact I. }
  destruct (findOrCreateChat_dedup [u1; u2] empty_db c db1 wf_empty Hne E)
    as (Hperm & Hsup & _).
  exists c, db1. split_and!; [done|apply Hperm, Permutation_swap|].
  destruct (findOrCreateChat [u1; u2; u3] db1) as [c' db2] eqn:E'.
  apply (Hsup Hnd [u1; u2; u3] c' db2); [| |done].
  - intros p Hp. apply (bool_decide_unpack _).
    apply elem_of_cons in Hp as [->|Hp]; [by vm_compute|].
    apply list_elem_of_singleton in Hp as ->. by vm_compute.
  - intros Hall. assert (u3 ∈ [u1; u2]) as Hin.
    { apply Hall. do 2 right. left. }
    revert Hin. apply (bool_decide_unpack _). by vm_compute.
Defined.

(** With an empty participant list no stored chat matches, so every call
    creates one more chat. *)
Lemma findOrCreateChat_empty_request_twice :
  ∃ c db1 c' db2,
    findOrCreateChat [] empty_db = (c, db1)
    ∧ findOrCreateChat [] db1 = (c', db2)
    ∧ _id c' ≠ _id c ∧ db2 ≠ db1.
Proof.
  do 4 eexists. split_and!; [reflexivity|reflexivity|simpl; lia|discriminate].
Qed.

(** ** Sending a message *)




Lemma send_message_persists chatId sender text t_push t_emit db i chat :
  Chat_findById chatId db = Some (i, chat) →
  let chat' := mkChat (_id chat) (participants chat)
                 (messages chat ++ [mkMessage sender text t_push]) in
  send_message chatId sender text t_push t_emit db
  = (mkDB (db_users db) (<[i:=chat']> (db_chats db)) (db_next_id db),
     [io_to (ChatRoom chatId) (receive_message (mkMessage sender text t_emit))])
  ∧ Chat_findById chatId (send_message chatId sender text t_push t_emit db).1
    = Some (i, chat').
Proof.
  intros Hf chat'. unfold send_message. rewrite Hf. split; [done|]. simpl.
  apply list_find_Some in Hf as (Hi & Hid & Hfirst).
  unfold Chat_findById. simpl. apply list_find_insert_Some.
  right; left. split_and!; [done|done|by eapply lookup_lt_Some|done|done].
Qed.

(** C3, as amended.  On an existing chat [send_message] appends the
    message [{sender, text}] stamped with the clock read when it is stored,
    touches no other chat and no user, and broadcasts [receive_message]
    with the same sender and text, stamped with a second clock reading
    taken at the broadcast, to every connection of the chat's room (the
    sender's connection too, when it has joined the room).  The echoed
    message equals the stored one exactly when the two clock readings
    agree. *)
Theorem send_message_existing chatId sender text t_push t_emit db i chat :
  Chat_findById chatId db = Some (i, chat) →
  let persisted := mkMessage sender text t_push in
  let echoed := mkMessage sender text t_emit in
  let broadcast := io_to (ChatRoom chatId) (receive_message echoed) in
  ∃ db',
    send_message chatId sender text t_push t_emit db = (db', [broadcast])
    ∧ Chat_findById chatId db'
      = Some (i, mkChat (_id chat) (participants chat) (messages chat ++ [persisted]))
    ∧ db_users db' = db_users db
    ∧ (∀ j, j ≠ i → db_chats db' !! j = db_chats db !! j)
    ∧ (∀ rooms conn, conn ∈ members rooms (ChatRoom chatId) →
         conn ∈ recipients rooms broadcast)
    ∧ (echoed = persisted ↔ t_emit = t_push).
Proof.
  intros Hf persisted echoed broadcast.
  destruct (send_message_persists chatId sender text t_push t_emit db i chat Hf)
    as [Hrun Hfind].
  rewrite Hrun in Hfind. eexists. split_and!; [exact Hrun|exact Hfind|done| |done|].
  - intros j Hj. simpl. by apply list_lookup_insert_ne.
  - unfold echoed, persisted. split; [by intros [= ->]|by intros ->].
Qed.

Lemma send_message_existing_witness :
  ∃ db',
    send_message 0 u1 "hi" 1000 1000 (hub_db one_chat)
    = (db', [io_to (ChatRoom 0) (receive_message (mkMessage u1 "hi" 1000))])
    ∧ Chat_findById 0 db' = Some (0, mkChat 0 [u1; u2] [mkMessage u1 "hi" 1000])
    ∧ 1 ∈ recipients (hub_rooms one_chat)
            (io_to (ChatRoom 0) (receive_message (mkMessage u1 "hi" 1000))).
Proof.
  destruct (send_message_existing 0 u1 "hi" 1000 1000 (hub_db one_chat) 0
              (mkChat 0 [u1; u2] []) eq_refl)
    as (db' & Hrun & Hfind & _ & _ & Hroom & _).
  exists db'. split_and!; [exact Hrun|exact Hfind|].
  apply Hroom. apply (bool_decide_unpack _). by vm_compute.
Defined.

(** The broadcast is stamped after the save: stored at clock 1000 and
    emitted at clock 1005, the echo differs from the stored message. *)
Lemma send_message_echo_timestamp_differs :
  ∃ db' persisted echoed,
    send_message 0 u1 "hi" 1000 1005 (hub_db one_chat)
    = (db', [io_to (ChatRoom 0) (receive_message echoed)])
    ∧ db_chats db' = [mkChat 0 [u1; u2] [persisted]]
    ∧ echoed ≠ persisted.
Proof.
  do 3 eexists. split_and!; [reflexivity|reflexivity|discriminate].
Qed.

(** C9, as amended.  A stored message has a sender, a text and a
    timestamp, and nothing else: [send_message] reads only [chatId],
    [sender] and [text] of the payload, so whatever image the client
    supplies, the database and the broadcast are the same, and the message
    appended to an existing chat is [{sender, text, timestamp}]. *)
Theorem send_message_ignores_image chatId sender text image image' t_push t_emit db :
  on_send_message (mkSend chatId sender text image) t_push t_emit db
  = on_send_message (mkSend chatId sender text image') t_push t_emit db
  ∧ ∀ i chat, Chat_findById chatId db = Some (i, chat) →
      Chat_findById chatId
        (on_send_message (mkSend chatId sender text image) t_push t_emit db).1
      = Some (i, mkChat (_id chat) (participants chat)
                   (messages chat ++ [mkMessage sender text t_push])).
Proof.
  split; [done|]. intros i chat Hf. unfold on_send_message. simpl.
  by apply send_message_persists.
Qed.

Lemma send_message_ignores_image_witness :
  Chat_findById 0
    (on_send_message (mkSend 0 u1 "hi" (Some "file:///photo.jpg")) 1000 1005
       (hub_db one_chat)).1
  = Some (0, mkChat 0 [u1; u2] [mkMessage u1 "hi" 1000]).
Proof.
  apply (proj2 (send_message_ignores_image 0 u1 "hi" (Some "file:///photo.jpg")
                  None 1000 1005 (hub_db one_chat)) 0 (mkChat 0 [u1; u2] [])).
  reflexivity.
Defined.

(** A payload with an image and the same payload without one leave the
    same database and the same broadcast: the image is not stored. *)
Lemma send_message_drops_image :
  payload_image (mkSend 0 u1 "hi" (Some "file:///photo.jpg")) = Some "file:///photo.jpg"
  ∧ on_send_message (mkSend 0 u1 "hi" (Some "file:///photo.jpg")) 1000 1005
      (hub_db one_chat)
    = on_send_message (mkSend 0 u1 "hi" None) 1000 1005 (hub_db one_chat)
  ∧ db_chats (on_send_message (mkSend 0 u1 "hi" (Some "file:///photo.jpg"))
                1000 1005 (hub_db one_chat)).1
    = [mkChat 0 [u1; u2] [mkMessage u1 "hi" 1000]].
Proof. split_and!; reflexivity. Qed.

(** ** Listing the chats of a user *)

Lemma last_message_last (c : Chat) :
  last_message c = from_option Sent Placeholder (last (messages c)).
Proof.
  unfold last_message. rewrite last_lookup.
  destruct (messages c) as [|m ms]; [done|].
  rewrite bool_decide_eq_true_2 by (simpl; lia).
  replace (length (m :: ms) - 1) with (pred (length (m :: ms))) by (simpl; lia).
  by destruct (_ !! _).
Qed.

Lemma last_message_snoc i ps ms m :
  last_message (mkChat i ps (ms ++ [m])) = Sent m.
Proof. rewrite last_message_last. simpl. by rewrite last_snoc. Qed.

Lemma elem_of_chatList self u db s :
  s ∈ chatList self u db ↔
    ∃ c, c ∈ db_chats db ∧ _id c ∈ chats u ∧ s = chatListEntry self c.
Proof.
  unfold chatList, Chat_find_in. rewrite list_elem_of_fmap. split.
  - intros (c & -> & [Hin Hc]%list_elem_of_filter). by exists c.
  - intros (c & Hc & Hin & ->). exists c. split; [done|].
    by apply list_elem_of_filter.
Qed.

(** In a well-formed database the chats linked to a user have that user
    among their participants. *)
Lemma linked_chat_participant db u c :
  wf_db db → u ∈ db_users db → c ∈ db_chats db → _id c ∈ chats u →
  email u ∈ participants c.
Proof.
  intros Hwf Hu Hc Hin.
  destruct (wf_links _ Hwf u (_id c) Hu Hin) as (c' & Hc' & Hid & Hp).
  by rewrite <-(wf_id_inj db c' c Hwf Hc' Hc Hid).
Qed.

Section chatlist.
Context `{Crypto}.

(** C4, as amended.  For the email [self] of a verified token,
    [GET /chatlist] answers 404 when no user has that email; otherwise it
    answers 200 with one summary for every chat referenced by the user's
    [chats] list (the chats created with the user as a participant while
    the user was registered; in a well-formed database each of them has
    the user among its participants).  A summary carries the chat id, the
    chat's participants other than [self], and the last message of the
    chat or the placeholder when there is none; after [send_message] on
    a listed chat, that chat's summary carries the message just
    stored.  The database is left as it is. *)
Theorem chatlist_handler_spec req_user self db :
  jwt_email req_user = Some self →
  (User_findOne self db = None →
     chatlist_handler req_user db
     = (db, mkResponse 404 (JMessage "User not found")))
  ∧ (∀ i user, User_findOne self db = Some (i, user) →
       chatlist_handler req_user db
       = (db, mkResponse 200 (JChatList (chatList self user db)))
       ∧ (∀ s, s ∈ chatList self user db ↔
                ∃ c, c ∈ db_chats db ∧ _id c ∈ chats user
                     ∧ s = chatListEntry self c)
       ∧ (wf_db db → ∀ c, c ∈ db_chats db → _id c ∈ chats user →
            self ∈ participants c)
       ∧ (∀ cid sender text t_push t_emit j c,
            cid ∈ chats user → Chat_findById cid db = Some (j, c) →
            let db' := (send_message cid sender text t_push t_emit db).1 in
            ∃ l s, chatlist_handler req_user db'
                   = (db', mkResponse 200 (JChatList l))
                   ∧ s ∈ l ∧ chatId s = cid
                   ∧ lastMessage s = Sent (mkMessage sender text t_push)))
  ∧ (∀ c, chatId (chatListEntry self c) = _id c
          ∧ summary_participants (chatListEntry self c)
            = filter (λ p, p ≠ self) (participants c)
          ∧ (∀ p, p ∈ summary_participants (chatListEntry self c) ↔
                   p ∈ participants c ∧ p ≠ self)
          ∧ lastMessage (chatListEntry self c)
            = from_option Sent Placeholder (last (messages c))).
Proof.
  intros Hself. unfold chatlist_handler. rewrite Hself. simpl. split_and!.
  - by intros ->.
  - intros i user Hf. rewrite Hf. split_and!; [done|apply elem_of_chatList| |].
    + intros Hwf c Hc Hin.
      apply User_findOne_Some_email in Hf as [<- Hi].
      apply (linked_chat_participant db user c); [done| |done..].
      by eapply list_elem_of_lookup_2.
    + intros cid sender text t_push t_emit j c Hcid Hfc.
      destruct (send_message_persists cid sender text t_push t_emit db j c Hfc)
        as [Hrun Hfind].
      set (db' := (send_message cid sender text t_push t_emit db).1) in *.
      assert (db_users db' = db_users db) as Husers by (unfold db'; by rewrite Hrun).
      assert (User_findOne self db' = Some (i, user)) as ->.
      { unfold User_findOne. by rewrite Husers. }
      apply list_find_Some in Hfind as (Hj & Hid & _).
      exists (chatList self user db'),
        (chatListEntry self
           (mkChat (_id c) (participants c)
              (messages c ++ [mkMessage sender text t_push]))).
      split_and!; [done| |done|apply last_message_snoc].
      apply elem_of_chatList. eexists. split_and!; [|simpl|done].
      * by eapply list_elem_of_lookup_2.
      * simpl in Hid. by rewrite Hid.
  - intros c. split_and!; [done|done| |apply last_message_last].
    intros p. simpl. rewrite list_elem_of_filter. tauto.
Qed.

(** The chat list is served to tokens that [verifyToken] accepts. *)
Lemma get_chatlist_next a now db user :
  verifyToken a now = Next user →
  get_chatlist a now db = chatlist_handler user db
  ∧ ∃ self, jwt_email user = Some self ∧ self ≠ "".
Proof.
  intros Hv. unfold get_chatlist. rewrite Hv. split; [done|].
  unfold verifyToken in Hv.
  destruct (a ≫= _) as [[[|]|alg p sig]|]; try done;
    destruct (jwt_verify _ _ _) as [|p']; try done;
    destruct (truthy (jwt_email p')) eqn:Ht; try done;
    injection Hv as <-; destruct (jwt_email p') as [e|]; try done;
    exists e; (split; [done|]); by apply bool_decide_eq_true in Ht.
Qed.
End chatlist.

Lemma chatlist_handler_spec_witness :
  chatlist_handler (mkPayload (Some u1) 5 (Some 3605%Z) None) (hub_db one_chat)
  = (hub_db one_chat,
     mkResponse 200 (JChatList [mkSummary 0 [u2] Placeholder]))
  ∧ ∃ l s,
      chatlist_handler (mkPayload (Some u1) 5 (Some 3605%Z) None)
        (send_message 0 u2 "hello" 1000 1005 (hub_db one_chat)).1
      = ((send_message 0 u2 "hello" 1000 1005 (hub_db one_chat)).1,
         mkResponse 200 (JChatList l))
      ∧ s ∈ l ∧ chatId s = 0 ∧ lastMessage s = Sent (mkMessage u2 "hello" 1000).
Proof.
  destruct (chatlist_handler_spec (mkPayload (Some u1) 5 (Some 3605%Z) None) u1
              (hub_db one_chat) eq_refl) as (_ & Hfound & _).
  destruct (Hfound 0 (mkUser u1 (Some "$2b$pw") [0]) eq_refl)
    as (Hlist & _ & _ & Hsend).
  split; [exact Hlist|].
  apply (Hsend 0 u2 "hello" 1000%Z 1005%Z 0 (mkChat 0 [u1; u2] [])).
  - by left.
  - reflexivity.
Defined.

(** [u2] was named in a chat before registering: the chat lists [u2] as a
    participant, yet the chat list served to [u2] is empty. *)
Lemma chatlist_omits_chat_created_before_registration :
  @reachable toy_crypto late_registration
  ∧ db_chats (hub_db late_registration) = [mkChat 0 [u1; u2] []]
  ∧ User_findOne u2 (hub_db late_registration)
    = Some (1, mkUser u2 (Some "$2b$pw") [])
  ∧ @get_chatlist toy_crypto
      (Some [Raw "Bearer"; @jwt_sign toy_crypto u2 JWT_SECRET 3600 5000])
      6000 (hub_db late_registration)
    = (hub_db late_registration, mkResponse 200 (JChatList [])).
Proof.
  split_and!; [|reflexivity..].
  do 3 apply @reachable_run. constructor.
Qed.

(** ** Creating a chat: fan-out and acknowledgment *)

Lemma findOrCreateChat_emails ps db :
  email <$> db_users (findOrCreateChat ps db).2 = email <$> db_users db.
Proof.
  unfold findOrCreateChat. destruct (Chat_findOne ps db) as [[i c]|]; [done|].
  simpl. by rewrite links_emails.
Qed.

Lemma findOrCreateChat_unregistered ps db e :
  User_findOne e (findOrCreateChat ps db).2 = None ↔ User_findOne e db = None.
Proof. by rewrite !User_findOne_None, findOrCreateChat_emails. Qed.

Lemma findOrCreateChat_participants ps db c db1 :
  findOrCreateChat ps db = (c, db1) → ∀ p, p ∈ ps → p ∈ participants c.
Proof.
  unfold findOrCreateChat.
  destruct (Chat_findOne ps db) as [[i c0]|] eqn:Hf; intros [= <- <-]; [|done].
  apply list_find_Some in Hf as (_ & Hm & _).
  by apply chat_matches_spec in Hm as (_ & Hsub & _).
Qed.

Lemma elem_of_push_chatlist db e em :
  em ∈ push_chatlist db e ↔
    ∃ i u, User_findOne e db = Some (i, u)
           ∧ em = io_to (UserRoom e) (chatlist_updated (chatList e u db)).
Proof.
  unfold push_chatlist. destruct (User_findOne e db) as [[i u]|].
  - rewrite list_elem_of_singleton. split; [intros ->; eauto|].
    by intros (? & ? & [= <- <-] & ->).
  - split; [by intros ?%elem_of_nil|by intros (? & ? & ? & _)].
Qed.

Lemma elem_of_pushes db ps em :
  em ∈ ps ≫= push_chatlist db ↔
    ∃ e i u, e ∈ ps ∧ User_findOne e db = Some (i, u)
             ∧ em = io_to (UserRoom e) (chatlist_updated (chatList e u db)).
Proof.
  rewrite list_elem_of_bind. split.
  - intros (e & (i & u & ? & ?)%elem_of_push_chatlist & ?). by exists e, i, u.
  - intros (e & i & u & ? & ? & ?). exists e. split; [|done].
    apply elem_of_push_chatlist. eauto.
Qed.

Lemma pushes_no_chat_created db ps :
  filter is_chat_created (ps ≫= push_chatlist db) = [].
Proof.
  induction ps as [|e ps IH]; [done|]. csimpl. rewrite filter_app, IH.
  unfold push_chatlist. by destruct (User_findOne e db) as [[i u]|].
Qed.

(** The linking loop passes over an email that no user has. *)
Lemma link_participant_unregistered cid db e :
  User_findOne e db = None → link_participant cid db e = db.
Proof. intros Hf. unfold link_participant. by rewrite Hf. Qed.

(** C5, as amended.  On every [create_chat], after the chat has been
    found or created, the hub pushes to the email room of every
    participant that is a registered user (and of no one else) a
    [chatlist_updated] carrying that user's chat list recomputed on the
    resulting database, and then emits exactly one [chat_created], to the
    connection the request came from and to no room, carrying the chat's
    id, its full participant list and its last message. *)
Theorem create_chat_fanout sock ps db :
  ∃ existing db1 pushes,
    findOrCreateChat ps db = (existing, db1)
    ∧ create_chat sock ps db
      = (db1, pushes ++ [socket_emit sock (chat_created (structuredChat existing))])
    ∧ (∀ e i u, e ∈ ps → User_findOne e db1 = Some (i, u) →
         io_to (UserRoom e) (chatlist_updated (chatList e u db1)) ∈ pushes)
    ∧ (∀ em, em ∈ pushes →
         ∃ e i u, e ∈ ps ∧ User_findOne e db1 = Some (i, u)
                  ∧ em = io_to (UserRoom e) (chatlist_updated (chatList e u db1)))
    ∧ filter is_chat_created (create_chat sock ps db).2
      = [socket_emit sock (chat_created (structuredChat existing))]
    ∧ (∀ rooms, recipients rooms
                  (socket_emit sock (chat_created (structuredChat existing)))
                = {[sock]})
    ∧ structuredChat existing
      = mkSummary (_id existing) (participants existing)
          (from_option Sent Placeholder (last (messages existing))).
Proof.
  unfold create_chat. destruct (findOrCreateChat ps db) as [existing db1].
  exists existing, db1, (ps ≫= push_chatlist db1).
  split_and!; [done|done| |by intros em ?%elem_of_pushes| |done|].
  - intros e i u He Hf. apply elem_of_pushes. by exists e, i, u.
  - simpl. by rewrite filter_app, pushes_no_chat_created.
  - unfold structuredChat. by rewrite last_message_last.
Qed.

Lemma create_chat_fanout_witness :
  ∃ db1 pushes,
    create_chat 1 [u1; u2] (hub_db before_chat)
    = (db1, pushes ++ [socket_emit 1 (chat_created (mkSummary 0 [u1; u2] Placeholder))])
    ∧ io_to (UserRoom u1) (chatlist_updated [mkSummary 0 [u2] Placeholder]) ∈ pushes.
Proof.
  destruct (create_chat_fanout 1 [u1; u2] (hub_db before_chat))
    as (existing & db1 & pushes & Hfc & Hrun & Hpush & _).
  injection Hfc as <- <-.
  eexists. exists pushes. split; [exact Hrun|].
  apply (Hpush u1 0 (mkUser u1 (Some "$2b$pw") [0])); [by left|reflexivity].
Defined.

(** [u2] is a participant but not a user: connection 7, which listens on
    the room of [u2], is sent nothing. *)
Lemma create_chat_no_push_to_unregistered :
  ∃ db1 es,
    create_chat 1 [u1; u2] (hub_db before_chat) = (db1, es)
    ∧ 7 ∈ members (hub_rooms before_chat) (UserRoom u2)
    ∧ ∀ em, em ∈ es → 7 ∉ recipients (hub_rooms before_chat) em.
Proof.
  do 2 eexists. split_and!; [reflexivity| |].
  - apply (bool_decide_unpack _). by vm_compute.
  - intros em Hem. apply (bool_decide_unpack _).
    repeat (apply elem_of_cons in Hem as [->|Hem]); [by vm_compute..|].
    by apply elem_of_nil in Hem.
Qed.

(** C10.  When a participant [e] of a [create_chat] request is the email
    of no user, the chat is stored with [e] among its participants and the
    [chat_created] acknowledgment lists [e]; the linking loop passes over
    [e], so that afterwards there is still no user with that email, hence
    no user record linked on its behalf; and no event is pushed to the
    room of [e]. *)
Theorem create_chat_unregistered sock ps db e :
  e ∈ ps → User_findOne e db = None →
  ∃ existing db1 pushes,
    create_chat sock ps db
    = (db1, pushes ++ [socket_emit sock (chat_created (structuredChat existing))])
    ∧ existing ∈ db_chats db1
    ∧ e ∈ participants existing
    ∧ e ∈ summary_participants (structuredChat existing)
    ∧ (∀ cid d, User_findOne e d = None → link_participant cid d e = d)
    ∧ User_findOne e db1 = None
    ∧ (∀ u, u ∈ db_users db1 → _id existing ∈ chats u → email u ≠ e)
    ∧ (∀ ev, io_to (UserRoom e) ev ∉ pushes).
Proof.
  intros He Hf. unfold create_chat.
  pose proof (findOrCreateChat_unregistered ps db e) as Hunreg.
  destruct (findOrCreateChat ps db) as [existing db1] eqn:Hfc. simpl in Hunreg.
  apply Hunreg in Hf.
  destruct (findOrCreateChat_stored _ _ _ _ Hfc) as [Hstored _].
  pose proof (findOrCreateChat_participants _ _ _ _ Hfc e He) as Hin.
  exists existing, db1, (ps ≫= push_chatlist db1).
  split_and!; [done|done|done|done| |done| |].
  - intros cid d. apply link_participant_unregistered.
  - intros u Hu _ Heq. apply User_findOne_None in Hf. apply Hf.
    rewrite <-Heq. by apply list_elem_of_fmap_2.
  - intros ev (e' & i & u & _ & Hf' & [= <- _])%elem_of_pushes. congruence.
Qed.

Lemma create_chat_unregistered_witness :
  ∃ existing db1 pushes,
    create_chat 1 [u1; u2] (hub_db before_chat)
    = (db1, pushes ++ [socket_emit 1 (chat_created (structuredChat existing))])
    ∧ existing ∈ db_chats db1
    ∧ u2 ∈ participants existing
    ∧ User_findOne u2 db1 = None
    ∧ ∀ ev, io_to (UserRoom u2) ev ∉ pushes.
Proof.
  assert (u2 ∈ [u1; u2]) as Hin by (right; left).
  destruct (create_chat_unregistered 1 [u1; u2] (hub_db before_chat) u2 Hin eq_refl)
    as (existing & db1 & pushes & Hrun & Hstored & Hpart & _ & _ & Hnone & _ & Hroom).
  by exists existing, db1, pushes.
Defined.

(** ** Registration, login and token verification *)

Section auth.
Context `{Crypto}.

(** C6, as amended.  [register] answers 400 and leaves the database as
    it is whenever a user with that email exists, and also whenever the
    email or the password is empty.  Otherwise it answers 201 and adds
    exactly one user, with that email, no chats, and as password the
    bcrypt hash (10 rounds) of the password; nothing else changes, and
    the password reaches the database through its hash only: two
    passwords with the same hash leave the same database. *)
Theorem register_spec e pw salt db :
  (is_Some (User_findOne e db) →
     ∃ m, register e pw salt db = (db, mkResponse 400 (JMessage m)))
  ∧ (e = "" ∨ pw = "" →
       register e pw salt db = (db, mkResponse 400 (JMessage "Required fields")))
  ∧ (e ≠ "" → pw ≠ "" → is_Some (User_findOne e db) →
       register e pw salt db = (db, mkResponse 400 (JMessage "User exists")))
  ∧ (e ≠ "" → pw ≠ "" → User_findOne e db = None →
       register e pw salt db
       = (mkDB (db_users db ++ [mkUser e (Some (bcrypt_hash pw 10 salt)) []])
            (db_chats db) (db_next_id db),
          mkResponse 201 (JMessage "Registered")))
  ∧ (∀ pw', pw ≠ "" → pw' ≠ "" →
       bcrypt_hash pw' 10 salt = bcrypt_hash pw 10 salt →
       register e pw' salt db = register e pw salt db).
Proof.
  unfold register. split_and!.
  - intros [[i u] Hf]. rewrite Hf.
    destruct (_ || _); eauto.
  - intros [->| ->]; [done|]. by rewrite orb_true_r.
  - intros He Hpw [[i u] Hf]. rewrite Hf.
    by rewrite !bool_decide_eq_false_2.
  - intros He Hpw Hf. rewrite Hf. by rewrite !bool_decide_eq_false_2.
  - intros pw' Hpw Hpw' Hh.
    rewrite (bool_decide_eq_false_2 (pw = "")), (bool_decide_eq_false_2 (pw' = ""))
      by done.
    destruct (bool_decide (e = "")); [done|]. simpl.
    destruct (User_findOne e db); [done|]. by rewrite Hh.
Qed.


Lemma jwt_verify_sign e now now' :
  jwt_verify (jwt_sign e JWT_SECRET 3600 now) JWT_SECRET now'
  = if bool_decide (now `div` 1000 + 3600 ≤ now' `div` 1000)%Z
    then inl TokenExpiredError
    else inr (mkPayload (Some e) (now `div` 1000)
                (Some (now `div` 1000 + 3600)%Z) None).
Proof. unfold jwt_verify, jwt_sign. simpl. by rewrite bool_decide_eq_true_2. Qed.

(** The whole seconds of the clock are below the expiry of a token
    issued at [now] exactly while less than an hour, shortened by the
    milliseconds of [now] past its whole second, has gone by. *)
Lemma expiry_in_milliseconds (now now' : Z) :
  (now' `div` 1000 < now `div` 1000 + 3600 ↔
   now' - now < 3600000 - now `mod` 1000)%Z.
Proof. Z.div_mod_to_equations. lia. Qed.

Lemma login_token e pw now db token :
  wf_db db →
  (login e pw now db).2 = mkResponse 200 (JToken "Login successful" token) →
  token = jwt_sign e JWT_SECRET 3600 now ∧ e ≠ "".
Proof.
  intros Hwf. unfold login.
  destruct (User_findOne e db) as [[i u]|] eqn:Hf; [|done].
  apply User_findOne_Some_email in Hf as [He Hi].
  apply list_elem_of_lookup_2, (wf_emails_nonempty _ Hwf) in Hi.
  destruct (password u) as [h|]; [|done].
  case_bool_decide; [|done]. destruct (bcrypt_compare pw h); [|done].
  simpl. intros [= <-]. split; congruence.
Qed.

(** C8, as amended.  A token that [login] issued at clock [now] is
    accepted by [verifyToken], with the email it was issued for as
    identity, at every clock whose whole second is before the token's
    expiry, 3600 s after the whole second of [now]: that is while less
    than an hour minus the milliseconds of [now] past its whole second has
    gone by, hence for at least 3599 s after the login and for a full hour
    only when the login fell on a whole second; from the expiry on it is
    refused.  A request is refused, and the handler not called, when the
    token is missing (status 401) and when it is malformed, not signed
    under the server's secret with an allowed algorithm, expired or
    without an email (status 403). *)
Theorem verifyToken_spec :
  (∀ e pw now db token scheme now',
     wf_db db →
     (login e pw now db).2 = mkResponse 200 (JToken "Login successful" token) →
     ((now' - now < 3600000 - now `mod` 1000)%Z →
        ∃ user, verifyToken (Some [scheme; token]) now' = Next user
                ∧ jwt_email user = Some e)
     ∧ ((now' - now ≤ 3599000)%Z →
          ∃ user, verifyToken (Some [scheme; token]) now' = Next user
                  ∧ jwt_email user = Some e)
     ∧ ((3600000 - now `mod` 1000 ≤ now' - now)%Z →
          verifyToken (Some [scheme; token]) now'
          = Respond (mkResponse 403 (JMessage "Invalid token"))))
  ∧ (∀ now, verifyToken None now
            = Respond (mkResponse 401 (JMessage "No token provided")))
  ∧ (∀ ws now, ws !! 1 = None ∨ ws !! 1 = Some (Raw "") →
       verifyToken (Some ws) now
       = Respond (mkResponse 401 (JMessage "No token provided")))
  ∧ (∀ ws now s, ws !! 1 = Some (Raw s) → s ≠ "" →
       verifyToken (Some ws) now
       = Respond (mkResponse 403 (JMessage "Invalid token")))
  ∧ (∀ ws now alg p sig, ws !! 1 = Some (Jwt alg p sig) →
       jws_sign alg JWT_SECRET p ≠ Some sig →
       verifyToken (Some ws) now
       = Respond (mkResponse 403 (JMessage "Invalid token")))
  ∧ (∀ ws now alg p sig t, ws !! 1 = Some (Jwt alg p sig) →
       exp p = Some t → (t ≤ now `div` 1000)%Z →
       verifyToken (Some ws) now
       = Respond (mkResponse 403 (JMessage "Invalid token")))
  ∧ (∀ ws now alg p sig, ws !! 1 = Some (Jwt alg p sig) →
       truthy (jwt_email p) = false →
       verifyToken (Some ws) now
       = Respond (mkResponse 403 (JMessage "Invalid token"))).
Proof.
  split_and!.
  - intros e pw now db token scheme now' Hwf Hlogin.
    destruct (login_token e pw now db token Hwf Hlogin) as [-> He].
    unfold verifyToken. simpl option_bind.
    change (Some [scheme; jwt_sign e JWT_SECRET 3600 now] ≫= (λ ws, ws !! 1))
      with (Some (jwt_sign e JWT_SECRET 3600 now)).
    pose proof (jwt_verify_sign e now now') as Hv.
    pose proof (expiry_in_milliseconds now now') as Hms.
    pose proof (Z.mod_pos_bound now 1000 eq_refl) as Hmod.
    unfold jwt_sign in *. cbv beta iota zeta in *. rewrite Hv.
    assert ((now' - now < 3600000 - now `mod` 1000)%Z →
            ∃ user,
              match
                (if bool_decide (now `div` 1000 + 3600 ≤ now' `div` 1000)%Z
                 then inl TokenExpiredError
                 else inr (mkPayload (Some e) (now `div` 1000)
                             (Some (now `div` 1000 + 3600)%Z) None))
              with
              | inl _ => Respond (mkResponse 403 (JMessage "Invalid token"))
              | inr decoded =>
                  if truthy (jwt_email decoded) then Next decoded
                  else Respond (mkResponse 403 (JMessage "Invalid token"))
              end = Next user ∧ jwt_email user = Some e) as Hok.
    { intros Hnow. rewrite bool_decide_eq_false_2 by lia. simpl.
      rewrite bool_decide_eq_true_2 by done. eauto. }
    split_and!.
    + exact Hok.
    + intros Hnow. apply Hok. lia.
    + intros Hnow. by rewrite bool_decide_eq_true_2 by lia.
  - done.
  - intros ws now [Hw|Hw]; unfold verifyToken; simpl; by rewrite Hw.
  - intros ws now s Hw Hs. unfold verifyToken. simpl. rewrite Hw.
    by destruct s.
  - intros ws now alg p sig Hw Hsig. unfold verifyToken. simpl. rewrite Hw.
    simpl. destruct (jws_sign alg JWT_SECRET p) as [valid|]; [|done].
    rewrite bool_decide_eq_false_2; [done|]. congruence.
  - intros ws now alg p sig t Hw Hexp Ht. unfold verifyToken. simpl. rewrite Hw.
    simpl. destruct (jws_sign alg JWT_SECRET p) as [valid|]; [|done].
    case_bool_decide; [|done]. destruct (jwt_not_active _ _); [done|].
    unfold jwt_expired. rewrite Hexp. by rewrite bool_decide_eq_true_2.
  - intros ws now alg p sig Hw He. unfold verifyToken. simpl. rewrite Hw.
    simpl. destruct (jws_sign alg JWT_SECRET p) as [valid|]; [|done].
    case_bool_decide; [|done]. destruct (jwt_not_active _ _); [done|].
    destruct (jwt_expired _ _); [done|]. by rewrite He.
Qed.
End auth.

Lemma one_chat_wf : wf_db (hub_db one_chat).
Proof. apply (@reachable_wf toy_crypto). do 2 apply @reachable_run. constructor. Qed.

Lemma register_spec_witness :
  @register toy_crypto u2 "pw" "salt2" (hub_db before_chat)
  = (mkDB [mkUser u1 (Some "$2b$pw") []; mkUser u2 (Some "$2b$pw") []] [] 0,
     mkResponse 201 (JMessage "Registered"))
  ∧ @register toy_crypto u1 "other" "salt3" (hub_db before_chat)
    = (hub_db before_chat, mkResponse 400 (JMessage "User exists"))
  ∧ @register toy_crypto u2 "" "salt2" (hub_db before_chat)
    = (hub_db before_chat, mkResponse 400 (JMessage "Required fields"))
  ∧ @register toy_crypto u2 "password1" "salt2" (hub_db before_chat)
    = @register toy_crypto u2 "password2" "salt2" (hub_db before_chat).
Proof.
  destruct (@register_spec toy_crypto u2 "pw" "salt2" (hub_db before_chat))
    as (_ & _ & _ & Hnew & _).
  destruct (@register_spec toy_crypto u1 "other" "salt3" (hub_db before_chat))
    as (_ & _ & Hexists & _).
  destruct (@register_spec toy_crypto u2 "" "salt2" (hub_db before_chat))
    as (_ & Hmissing & _).
  destruct (@register_spec toy_crypto u2 "password2" "salt2" (hub_db before_chat))
    as (_ & _ & _ & _ & Hsame).
  split_and!.
  - apply Hnew; [discriminate|discriminate|reflexivity].
  - apply Hexists; [discriminate|discriminate|by eexists].
  - apply Hmissing. by right.
  - apply Hsame; [discriminate|discriminate|reflexivity].
Defined.

(** No user has the email, but the password is empty: the request is
    refused and no user is created. *)
Lemma register_empty_password_creates_no_user :
  User_findOne u1 empty_db = None
  ∧ @register toy_crypto u1 "" "salt1" empty_db
    = (empty_db, mkResponse 400 (JMessage "Required fields")).
Proof. split; reflexivity. Qed.


Lemma verifyToken_spec_witness :
  (∃ user,
     @verifyToken toy_crypto
       (Some [Raw "Bearer"; @jwt_sign toy_crypto u1 JWT_SECRET 3600 5999]) 3604999
     = Next user ∧ jwt_email user = Some u1)
  ∧ @verifyToken toy_crypto
      (Some [Raw "Bearer"; @jwt_sign toy_crypto u1 JWT_SECRET 3600 5999]) 3605000
    = Respond (mkResponse 403 (JMessage "Invalid token"))
  ∧ @verifyToken toy_crypto (Some [Raw "Bearer"]) 6000
    = Respond (mkResponse 401 (JMessage "No token provided"))
  ∧ @verifyToken toy_crypto (Some [Raw "Bearer"; Raw "not.a.token"]) 6000
    = Respond (mkResponse 403 (JMessage "Invalid token"))
  ∧ @verifyToken toy_crypto
      (Some [Raw "Bearer";
             Jwt HS256 (mkPayload (Some u1) 5 (Some 3605%Z) None) "forged"]) 6000
    = Respond (mkResponse 403 (JMessage "Invalid token")).
Proof.
  destruct (@verifyToken_spec toy_crypto)
    as (Hissued & _ & Hmissing & Hmalformed & Hsig & _ & _).
  destruct (Hissued u1 "pw" 5999%Z (hub_db one_chat)
              (@jwt_sign toy_crypto u1 JWT_SECRET 3600 5999) (Raw "Bearer")
              3604999%Z one_chat_wf eq_refl) as (Hok & _ & _).
  destruct (Hissued u1 "pw" 5999%Z (hub_db one_chat)
              (@jwt_sign toy_crypto u1 JWT_SECRET 3600 5999) (Raw "Bearer")
              3605000%Z one_chat_wf eq_refl) as (_ & _ & Hlate).
  split_and!.
  - apply Hok. by vm_compute.
  - apply Hlate. by vm_compute.
  - apply Hmissing. by left.
  - by apply (Hmalformed _ _ "not.a.token").
  - by apply (Hsig _ _ HS256 (mkPayload (Some u1) 5 (Some 3605%Z) None) "forged").
Defined.

(** A token issued at 5999 ms is refused at 3605000 ms, 3599.001 s
    later: less than an hour after the login. *)
Lemma login_token_refused_within_the_hour :
  ∃ token,
    (@login toy_crypto u1 "pw" 5999 (hub_db one_chat)).2
    = mkResponse 200 (JToken "Login successful" token)
    ∧ (3605000 - 5999 < 3600000)%Z
    ∧ @verifyToken toy_crypto (Some [Raw "Bearer"; token]) 3605000
      = Respond (mkResponse 403 (JMessage "Invalid token")).
Proof. eexists. split_and!; [reflexivity|lia|reflexivity]. Qed.

(** ** Rooms *)

Lemma members_join sock r r' rooms :
  members (join sock r rooms) r'
  = if decide (r = r') then {[sock]} ∪ members rooms r else members rooms r'.
Proof.
  unfold members at 1, join. rewrite lookup_insert.
  by destruct (decide (r = r')).
Qed.

(** Joining a room twice is joining it once. *)
Lemma join_idempotent sock r rooms :
  join sock r (join sock r rooms) = join sock r rooms.
Proof.
  unfold join at 1. rewrite members_join, decide_True by done.
  unfold join. rewrite insert_insert_eq. f_equal.
  by rewrite (assoc_L (∪)), (idemp_L (∪)).
Qed.

(** The scenario of two users: [u1] creates the chat, both users are
    pushed a chat list with that one chat, [u1] gets the acknowledgment;
    [u2] joins the chat, [u1] sends "hi", and the connection of [u2]
    receives it. *)
Example end_to_end_scenario :
  let '(h1, out1) := @handle toy_crypto (on_create_chat 1 [u1; u2]) two_users in
  let '(h2, _) := @handle toy_crypto (join_chat 2 0) h1 in
  let '(h3, out3) :=
    @handle toy_crypto (on_send 1 (mkSend 0 u1 "hi" None) 2000 2003) h2 in
  out1 = Emits
           [io_to (UserRoom u1) (chatlist_updated [mkSummary 0 [u2] Placeholder]);
            io_to (UserRoom u2) (chatlist_updated [mkSummary 0 [u1] Placeholder]);
            socket_emit 1 (chat_created (mkSummary 0 [u1; u2] Placeholder))]
  ∧ out3 = Emits [io_to (ChatRoom 0) (receive_message (mkMessage u1 "hi" 2003))]
  ∧ 2 ∈ recipients (hub_rooms h3)
          (io_to (ChatRoom 0) (receive_message (mkMessage u1 "hi" 2003)))
  ∧ db_chats (hub_db h3) = [mkChat 0 [u1; u2] [mkMessage u1 "hi" 2000]].
Proof.
  vm_compute handle. split_and!; [reflexivity|reflexivity| |reflexivity].
  apply (bool_decide_unpack _). by vm_compute.
Qed.

(** * Further properties of the server *)

(** ** What a request leaves in place *)

Lemma chat_extends_refl c : chat_extends c c.
Proof. by split_and!. Qed.

Lemma user_extends_refl u : user_extends u u.
Proof. by split_and!. Qed.

Lemma chat_extends_trans c1 c2 c3 :
  chat_extends c1 c2 → chat_extends c2 c3 → chat_extends c1 c3.
Proof.
  intros (? & ? & ?) (? & ? & ?). split_and!; [congruence..|by etrans].
Qed.

Lemma user_extends_trans u1 u2 u3 :
  user_extends u1 u2 → user_extends u2 u3 → user_extends u1 u3.
Proof.
  intros (? & ? & ?) (? & ? & ?). split_and!; [congruence..|by etrans].
Qed.

Lemma db_extends_refl db : db_extends db db.
Proof.
  split; intros i x Hx; exists x;
    eauto using chat_extends_refl, user_extends_refl.
Qed.

Lemma db_extends_trans db1 db2 db3 :
  db_extends db1 db2 → db_extends db2 db3 → db_extends db1 db3.
Proof.
  intros [Hc12 Hu12] [Hc23 Hu23]. split.
  - intros i c Hc. destruct (Hc12 i c Hc) as (c2 & Hc2 & ?).
    destruct (Hc23 i c2 Hc2) as (c3 & Hc3 & ?).
    exists c3. eauto using chat_extends_trans.
  - intros i u Hu. destruct (Hu12 i u Hu) as (u2 & Hu2 & ?).
    destruct (Hu23 i u2 Hu2) as (u3 & Hu3 & ?).
    exists u3. eauto using user_extends_trans.
Qed.

Lemma insert_extends {A} (R : A → A → Prop) (l : list A) (i : nat) (x x' : A) :
  (∀ y, R y y) → l !! i = Some x → R x x' →
  ∀ j y, l !! j = Some y → ∃ y', <[i:=x']> l !! j = Some y' ∧ R y y'.
Proof.
  intros Hrefl Hi HR j y Hj. destruct (decide (i = j)) as [->|Hne].
  - exists x'. rewrite list_lookup_insert_eq by by eapply lookup_lt_Some.
    split; [done|]. congruence.
  - exists y. by rewrite list_lookup_insert_ne.
Qed.

Lemma send_message_extends chatId sender text t_push t_emit db :
  db_extends db (send_message chatId sender text t_push t_emit db).1.
Proof.
  unfold send_message.
  destruct (Chat_findById chatId db) as [[i c]|] eqn:Hf; [|apply db_extends_refl].
  apply list_find_Some in Hf as (Hi & _ & _). split; simpl.
  - apply (insert_extends chat_extends _ _ c); [apply chat_extends_refl|done|].
    split_and!; [done|done|]. by apply prefix_app_r.
  - intros j u Hu. exists u. eauto using user_extends_refl.
Qed.

Lemma link_participant_extends cid db e :
  db_extends db (link_participant cid db e).
Proof.
  unfold link_participant.
  destruct (User_findOne e db) as [[i u]|] eqn:Hf; [|apply db_extends_refl].
  case_bool_decide; [apply db_extends_refl|].
  apply User_findOne_Some_email in Hf as [_ Hi]. split; simpl.
  - intros j c Hc. exists c. eauto using chat_extends_refl.
  - apply (insert_extends user_extends _ _ u); [apply user_extends_refl|done|].
    split_and!; [done|done|]. by apply prefix_app_r.
Qed.

Lemma links_extends cid ps db :
  db_extends db (foldl (link_participant cid) db ps).
Proof.
  revert db. induction ps as [|e ps IH]; intros db; [apply db_extends_refl|].
  simpl. eapply db_extends_trans; [apply link_participant_extends|apply IH].
Qed.

Lemma findOrCreateChat_extends ps db :
  db_extends db (findOrCreateChat ps db).2.
Proof.
  unfold findOrCreateChat.
  destruct (Chat_findOne ps db) as [[i c]|]; [apply db_extends_refl|]. simpl.
  eapply db_extends_trans; [|apply links_extends]. split; simpl.
  - intros j c Hc. exists c. split; [by apply lookup_app_l_Some|].
    apply chat_extends_refl.
  - intros j u Hu. exists u. eauto using user_extends_refl.
Qed.

Section frames.
Context `{Crypto}.

Lemma register_extends e pw salt db : db_extends db (register e pw salt db).1.
Proof.
  unfold register. destruct (_ || _); [apply db_extends_refl|].
  destruct (User_findOne e db); [apply db_extends_refl|]. split; simpl.
  - intros j c Hc. exists c. eauto using chat_extends_refl.
  - intros j u Hu. exists u. split; [by apply lookup_app_l_Some|].
    apply user_extends_refl.
Qed.

Lemma handle_extends rq h : db_extends (hub_db h) (hub_db (handle rq h).1).
Proof.
  destruct rq; simpl.
  - pose proof (register_extends e pw salt (hub_db h)).
    by destruct (register _ _ _ _).
  - pose proof (login_db e pw now (hub_db h)) as Hl.
    destruct (login _ _ _ _); simpl in *. subst. apply db_extends_refl.
  - pose proof (get_chatlist_db authorization now (hub_db h)) as Hl.
    destruct (get_chatlist _ _ _); simpl in *. subst. apply db_extends_refl.
  - apply db_extends_refl.
  - apply db_extends_refl.
  - unfold on_send_message.
    pose proof (send_message_extends (payload_chatId p) (payload_sender p)
                  (payload_text p) t_push t_emit (hub_db h)).
    by destruct (send_message _ _ _ _ _ _).
  - unfold create_chat. pose proof (findOrCreateChat_extends ps (hub_db h)).
    by destruct (findOrCreateChat _ _).
Qed.

Lemma run_extends rqs h : db_extends (hub_db h) (hub_db (run rqs h)).
Proof.
  revert h. induction rqs as [|rq rqs IH]; intros h; [apply db_extends_refl|].
  eapply db_extends_trans; [apply handle_extends|apply IH].
Qed.

(** X1.  No request deletes or rewrites a chat: whatever requests the
    server handles, a stored chat is still stored at its position, with
    the same id and the same participants, and its earlier messages are
    the first of its messages, unchanged and in the same order. *)
Theorem chats_are_append_only rqs h i c :
  db_chats (hub_db h) !! i = Some c →
  ∃ c', db_chats (hub_db (run rqs h)) !! i = Some c'
        ∧ _id c' = _id c ∧ participants c' = participants c
        ∧ messages c `prefix_of` messages c'.
Proof. intros Hc. by destruct (run_extends rqs h) as [Hchats _]; apply Hchats. Qed.

(** X2.  No request deletes a user or changes an email or a password
    hash: whatever requests the server handles, a user document is still
    stored at its position with the same email and password, and the chats
    it listed are the first of the chats it lists. *)
Theorem users_are_permanent rqs h i u :
  db_users (hub_db h) !! i = Some u →
  ∃ u', db_users (hub_db (run rqs h)) !! i = Some u'
        ∧ email u' = email u ∧ password u' = password u
        ∧ chats u `prefix_of` chats u'.
Proof. intros Hu. by destruct (run_extends rqs h) as [_ Husers]; apply Husers. Qed.
End frames.

Lemma chats_are_append_only_witness :
  ∃ c', db_chats (hub_db (@run toy_crypto later_requests one_chat)) !! 0 = Some c'
        ∧ _id c' = 0 ∧ participants c' = [u1; u2]
        ∧ [] `prefix_of` messages c'.
Proof.
  apply (@chats_are_append_only toy_crypto later_requests one_chat 0
           (mkChat 0 [u1; u2] [])).
  reflexivity.
Defined.

Lemma users_are_permanent_witness :
  ∃ u', db_users (hub_db (@run toy_crypto later_requests one_chat)) !! 0 = Some u'
        ∧ email u' = u1 ∧ password u' = Some "$2b$pw"
        ∧ [0] `prefix_of` chats u'.
Proof.
  apply (@users_are_permanent toy_crypto later_requests one_chat 0
           (mkUser u1 (Some "$2b$pw") [0])).
  reflexivity.
Defined.

(** ** Registration and login over time *)

Lemma list_find_is_Some_lookup {A} (P : A → Prop) `{∀ x, Decision (P x)}
    (l : list A) i x :
  l !! i = Some x → P x → is_Some (list_find P l).
Proof. intros Hi HP. eapply list_find_elem_of; [by eapply list_elem_of_lookup_2|done]. Qed.

Lemma filter_no_ids (db : DB) : Chat_find_in [] db = [].
Proof.
  unfold Chat_find_in. induction (db_chats db) as [|c l IH]; [done|].
  rewrite filter_cons_False; [done|]. by intros ?%elem_of_nil.
Qed.

Section accounts.
Context `{Crypto}.

Lemma register_created e pw salt db db1 r :
  register e pw salt db = (db1, r) → status r = 201 →
  e ≠ "" ∧ db1 = mkDB (db_users db ++ [mkUser e (Some (bcrypt_hash pw 10 salt)) []])
                   (db_chats db) (db_next_id db)
  ∧ User_findOne e db = None.
Proof.
  unfold register. destruct (bool_decide (e = "")) eqn:He; [by intros [= <- <-]|].
  destruct (bool_decide (pw = "")); [by intros [= <- <-]|]. simpl.
  destruct (User_findOne e db) as [[i u]|]; [by intros [= <- <-]|].
  intros [= <- <-] _. by apply bool_decide_eq_false in He.
Qed.

Lemma register_taken e pw salt db :
  is_Some (User_findOne e db) →
  ∃ m, register e pw salt db = (db, mkResponse 400 (JMessage m)).
Proof.
  intros [[i u] Hf]. unfold register. rewrite Hf. destruct (_ || _); eauto.
Qed.

Lemma register_fresh e pw salt db :
  e ≠ "" → pw ≠ "" → User_findOne e db = None →
  register e pw salt db
  = (mkDB (db_users db ++ [mkUser e (Some (bcrypt_hash pw 10 salt)) []])
       (db_chats db) (db_next_id db),
     mkResponse 201 (JMessage "Registered")).
Proof.
  intros He Hpw Hf. unfold register. by rewrite Hf, !bool_decide_eq_false_2.
Qed.

(** X3.  An email is registered once and for all: after a registration
    answered 201, whatever requests the server handles next, every further
    registration with that email is answered 400 and changes nothing. *)
Theorem registration_is_permanent e pw salt h r rqs pw' salt' :
  (handle (POST_register e pw salt) h).2 = Http r → status r = 201 →
  let h' := run rqs (handle (POST_register e pw salt) h).1 in
  ∃ m, handle (POST_register e pw' salt') h'
       = (h', Http (mkResponse 400 (JMessage m))).
Proof.
  intros Hout H201 h'. subst h'. simpl in *.
  destruct (register e pw salt (hub_db h)) as [db1 r1] eqn:Hreg. simpl in *.
  injection Hout as ->.
  destruct (register_created _ _ _ _ _ _ Hreg H201) as (He & -> & Hnone).
  set (h' := run rqs _).
  assert (is_Some (User_findOne e (hub_db h'))) as Hsome.
  { destruct (run_extends rqs
                (mkHub (mkDB (db_users (hub_db h)
                                ++ [mkUser e (Some (bcrypt_hash pw 10 salt)) []])
                          (db_chats (hub_db h)) (db_next_id (hub_db h)))
                   (hub_rooms h))) as [_ Hu].
    destruct (Hu (length (db_users (hub_db h)))
                (mkUser e (Some (bcrypt_hash pw 10 salt)) []))
      as (u' & Hu' & Hemail & _).
    { simpl. by rewrite lookup_app_r, Nat.sub_diag by lia. }
    unfold User_findOne.
    eapply list_find_is_Some_lookup; [exact Hu'|exact Hemail]. }
  destruct (register_taken e pw' salt' (hub_db h') Hsome) as [m Hm].
  exists m. rewrite Hm.
  by destruct h'.
Qed.

(** X4.  A fresh registration can be used at once: when no user has the
    email, email and password are not empty and bcrypt accepts the
    password against the hash it made of it, the login that follows is
    answered 200 with a token, and [GET /chatlist] with that token, before
    it expires, is answered 200 with the empty list. *)
Theorem register_login_chatlist e pw salt now now' scheme db :
  e ≠ "" → pw ≠ "" → User_findOne e db = None →
  bcrypt_compare pw (bcrypt_hash pw 10 salt) = true →
  (now' `div` 1000 < now `div` 1000 + 3600)%Z →
  let db1 := (register e pw salt db).1 in
  ∃ token,
    login e pw now db1
    = (db1, mkResponse 200 (JToken "Login successful" token))
    ∧ get_chatlist (Some [scheme; token]) now' db1
      = (db1, mkResponse 200 (JChatList [])).
Proof.
  intros He Hpw Hnone Hcmp Hnow db1.
  unfold db1. rewrite (register_fresh e pw salt db He Hpw Hnone). simpl.
  set (user := mkUser e (Some (bcrypt_hash pw 10 salt)) []).
  set (db' := mkDB (db_users db ++ [user]) (db_chats db) (db_next_id db)).
  assert (User_findOne e db' = Some (length (db_users db), user)) as Hfind.
  { unfold User_findOne in *. simpl. rewrite list_find_app_r by done. simpl.
    by rewrite decide_True. }
  exists (jwt_sign e JWT_SECRET 3600 now). split.
  - unfold login. rewrite Hfind. simpl.
    rewrite bool_decide_eq_true_2 by apply bcrypt_hash_nonempty.
    by rewrite Hcmp.
  - unfold get_chatlist, verifyToken.
    change (Some [scheme; jwt_sign e JWT_SECRET 3600 now] ≫= (λ ws, ws !! 1))
      with (Some (jwt_sign e JWT_SECRET 3600 now)).
    pose proof (jwt_verify_sign e now now') as Hv.
    unfold jwt_sign in *. cbv beta iota zeta in *. rewrite Hv.
    rewrite bool_decide_eq_false_2 by lia. simpl.
    rewrite bool_decide_eq_true_2 by done.
    unfold chatlist_handler. simpl. rewrite Hfind.
    unfold chatList. simpl. by rewrite filter_no_ids.
Qed.
End accounts.

Lemma registration_is_permanent_witness :
  ∃ m, @handle toy_crypto (POST_register u2 "other" "salt3")
         (@run toy_crypto [on_create_chat 1 [u1; u2]]
            (@handle toy_crypto (POST_register u2 "pw" "salt2") before_chat).1)
       = (@run toy_crypto [on_create_chat 1 [u1; u2]]
            (@handle toy_crypto (POST_register u2 "pw" "salt2") before_chat).1,
          Http (mkResponse 400 (JMessage m))).
Proof.
  apply (@registration_is_permanent toy_crypto u2 "pw" "salt2" before_chat
           (mkResponse 201 (JMessage "Registered"))
           [on_create_chat 1 [u1; u2]] "other" "salt3");
    reflexivity.
Defined.

Lemma register_login_chatlist_witness :
  ∃ token,
    @login toy_crypto u2 "pw" 5999
      (@register toy_crypto u2 "pw" "salt2" (hub_db one_chat)).1
    = ((@register toy_crypto u2 "pw" "salt2" (hub_db one_chat)).1,
       mkResponse 200 (JToken "Login successful" token))
    ∧ @get_chatlist toy_crypto (Some [Raw "Bearer"; token]) 3604999
        (@register toy_crypto u2 "pw" "salt2" (hub_db one_chat)).1
      = ((@register toy_crypto u2 "pw" "salt2" (hub_db one_chat)).1,
         mkResponse 200 (JChatList [])).
Proof.
  apply (@register_login_chatlist toy_crypto u2 "pw" "salt2" 5999 3604999
           (Raw "Bearer") (hub_db one_chat));
    [discriminate|discriminate|reflexivity|reflexivity|by vm_compute].
Defined.

(** ** Rooms over time *)

Section rooms.
Context `{Crypto}.






End rooms.



(** ** Who is served a chat list *)

Section authorization.
Context `{Crypto}.

Lemma jwt_verify_inr token secret now p :
  jwt_verify token secret now = inr p →
  ∃ alg sig, token = Jwt alg p sig ∧ jws_sign alg secret p = Some sig
             ∧ jwt_not_active p (now `div` 1000) = false
             ∧ jwt_expired p (now `div` 1000) = false.
Proof.
  unfold jwt_verify. destruct token as [|alg p' sig]; [done|].
  destruct (jws_sign alg secret p') as [valid|] eqn:Hs; [|done].
  case_bool_decide as Hsig; [|done]. subst valid.
  destruct (jwt_not_active p' _) eqn:Hn; [done|].
  destruct (jwt_expired p' _) eqn:He; [done|].
  intros [= <-]. by exists alg, sig.
Qed.

Lemma jwt_not_active_false p clock :
  jwt_not_active p clock = false ↔ ∀ t, nbf p = Some t → (t ≤ clock)%Z.
Proof.
  unfold jwt_not_active. destruct (nbf p) as [t|].
  - rewrite bool_decide_eq_false. split.
    + intros Hn t' [= <-]. lia.
    + intros Hn. specialize (Hn t eq_refl). lia.
  - split; [by intros _ t|done].
Qed.

Lemma jwt_expired_false p clock :
  jwt_expired p clock = false ↔ ∀ t, exp p = Some t → (clock < t)%Z.
Proof.
  unfold jwt_expired. destruct (exp p) as [t|].
  - rewrite bool_decide_eq_false. split.
    + intros Hn t' [= <-]. lia.
    + intros Hn. specialize (Hn t eq_refl). lia.
  - split; [by intros _ t|done].
Qed.

Lemma verifyToken_Next_inv a now user :
  verifyToken a now = Next user →
  ∃ ws alg sig,
    a = Some ws ∧ ws !! 1 = Some (Jwt alg user sig)
    ∧ jws_sign alg JWT_SECRET user = Some sig
    ∧ (∀ t, nbf user = Some t → (t ≤ now `div` 1000)%Z)
    ∧ (∀ t, exp user = Some t → (now `div` 1000 < t)%Z)
    ∧ ∃ e, jwt_email user = Some e ∧ e ≠ "".
Proof.
  unfold verifyToken. destruct a as [ws|]; [|done]. simpl.
  destruct (ws !! 1) as [token|] eqn:Hw; [|done].
  assert (match jwt_verify token JWT_SECRET now with
          | inl _ => Respond (mkResponse 403 (JMessage "Invalid token"))
          | inr decoded =>
              if truthy (jwt_email decoded) then Next decoded
              else Respond (mkResponse 403 (JMessage "Invalid token"))
          end = Next user →
          jwt_verify token JWT_SECRET now = inr user
          ∧ ∃ e, jwt_email user = Some e ∧ e ≠ "") as Hd.
  { destruct (jwt_verify token JWT_SECRET now) as [|d]; [done|].
    destruct (jwt_email d) as [e|] eqn:He; simpl; [|done].
    case_bool_decide; [|done]. intros [= <-]. eauto. }
  intros Hv.
  assert (jwt_verify token JWT_SECRET now = inr user
          ∧ ∃ e, jwt_email user = Some e ∧ e ≠ "") as [Hj Hemail].
  { destruct token as [[|]|]; [done|by apply Hd|by apply Hd]. }
  apply jwt_verify_inr in Hj as (alg & sig & -> & Hs & Hn & He).
  exists ws, alg, sig.
  split_and!; [done|done|done| | |done].
  - by apply jwt_not_active_false.
  - by apply jwt_expired_false.
Qed.

(** X7.  [verifyToken] lets a request through exactly when the second
    word of the [Authorization] header is a token whose header names
    HS256, HS384 or HS512, signed with that algorithm under the server's
    secret, not before its [nbf] and not expired at the clock's whole
    second (a token without [nbf] is active, a token without [exp] never
    expires) and carrying a non-empty email; the identity handed to the
    route is the payload of that token.  The first word of the header and
    any word after the second play no part. *)
Theorem verifyToken_accepts_iff a now user :
  verifyToken a now = Next user ↔
    ∃ ws alg sig,
      a = Some ws ∧ ws !! 1 = Some (Jwt alg user sig)
      ∧ jws_sign alg JWT_SECRET user = Some sig
      ∧ (∀ t, nbf user = Some t → (t ≤ now `div` 1000)%Z)
      ∧ (∀ t, exp user = Some t → (now `div` 1000 < t)%Z)
      ∧ ∃ e, jwt_email user = Some e ∧ e ≠ "".
Proof.
  split; [apply verifyToken_Next_inv|].
  intros (ws & alg & sig & -> & Hw & Hs & Hnbf & Hexp & e & He & Hne).
  unfold verifyToken. simpl. rewrite Hw. simpl. rewrite Hs.
  rewrite bool_decide_eq_true_2 by done.
  rewrite (proj2 (jwt_not_active_false user _) Hnbf).
  rewrite (proj2 (jwt_expired_false user _) Hexp).
  rewrite He. simpl. by rewrite bool_decide_eq_true_2.
Qed.

(** X8.  [GET /chatlist] never changes the database and answers 200,
    401, 403 or 404.  It answers 200 only to a header whose second word is
    a token signed under the server's secret with HS256, HS384 or HS512,
    active and not expired, for an email that a user has, and the list it
    sends is the chat list of the first user with that email. *)
Theorem get_chatlist_authorized a now db :
  (get_chatlist a now db).1 = db
  ∧ status (get_chatlist a now db).2 ∈ [200; 401; 403; 404]
  ∧ (status (get_chatlist a now db).2 = 200 →
       ∃ ws alg p sig self i u,
         a = Some ws ∧ ws !! 1 = Some (Jwt alg p sig)
         ∧ jws_sign alg JWT_SECRET p = Some sig
         ∧ (∀ t, nbf p = Some t → (t ≤ now `div` 1000)%Z)
         ∧ (∀ t, exp p = Some t → (now `div` 1000 < t)%Z)
         ∧ jwt_email p = Some self
         ∧ User_findOne self db = Some (i, u)
         ∧ json (get_chatlist a now db).2 = JChatList (chatList self u db)).
Proof.
  split; [apply get_chatlist_db|].
  unfold get_chatlist. destruct (verifyToken a now) as [r|p] eqn:Hv.
  - simpl. assert (status r = 401 ∨ status r = 403) as Hr.
    { unfold verifyToken in Hv.
      destruct (a ≫= _) as [[[|]|alg p sig]|]; try (injection Hv as <-; by left);
        destruct (jwt_verify _ _ _) as [|d]; try (injection Hv as <-; by right);
        destruct (truthy _); try done; injection Hv as <-; by right. }
    split; [|intros ?; lia].
    destruct Hr as [-> | ->]; rewrite !elem_of_cons; auto.
  - apply verifyToken_Next_inv in Hv
      as (ws & alg & sig & -> & Hw & Hs & Hnbf & Hexp & self & He & Hne).
    unfold chatlist_handler. rewrite He. simpl.
    destruct (User_findOne self db) as [[i u]|] eqn:Hf; simpl.
    + split; [rewrite !elem_of_cons; auto|]. intros _.
      by exists ws, alg, p, sig, self, i, u.
    + split; [rewrite !elem_of_cons; auto|]. done.
Qed.
End authorization.

Lemma verifyToken_accepts_iff_witness :
  @verifyToken toy_crypto
    (Some [Raw "Anything";
           Jwt HS512 (mkPayload (Some u1) 5 None (Some 9%Z))
             "yourSecretKey.512.u1@x.com";
           Raw "trailing"]) 9999999999
  = Next (mkPayload (Some u1) 5 None (Some 9%Z)).
Proof.
  apply (@verifyToken_accepts_iff toy_crypto).
  exists [Raw "Anything";
          Jwt HS512 (mkPayload (Some u1) 5 None (Some 9%Z))
            "yourSecretKey.512.u1@x.com";
          Raw "trailing"], HS512, "yourSecretKey.512.u1@x.com".
  split_and!; [reflexivity|reflexivity|reflexivity| |discriminate|].
  - intros t [= <-]. by vm_compute.
  - exists u1. split; [reflexivity|discriminate].
Defined.

Lemma get_chatlist_authorized_witness :
  ∃ ws alg p sig self i u,
    Some [Raw "Bearer"; @jwt_sign toy_crypto u1 JWT_SECRET 3600 5999] = Some ws
    ∧ ws !! 1 = Some (Jwt alg p sig)
    ∧ @jws_sign toy_crypto alg JWT_SECRET p = Some sig
    ∧ (∀ t, nbf p = Some t → (t ≤ 6000 `div` 1000)%Z)
    ∧ (∀ t, exp p = Some t → (6000 `div` 1000 < t)%Z)
    ∧ jwt_email p = Some self
    ∧ User_findOne self (hub_db one_chat) = Some (i, u)
    ∧ json (@get_chatlist toy_crypto
              (Some [Raw "Bearer"; @jwt_sign toy_crypto u1 JWT_SECRET 3600 5999])
              6000 (hub_db one_chat)).2
      = JChatList (chatList self u (hub_db one_chat)).
Proof.
  apply (@get_chatlist_authorized toy_crypto
           (Some [Raw "Bearer"; @jwt_sign toy_crypto u1 JWT_SECRET 3600 5999])
           6000 (hub_db one_chat)).
  reflexivity.
Defined.

(** ** Creating a chat that did not exist *)

Lemma linked_email cid ps u : email (linked cid ps u) = email u.
Proof. unfold linked. by case_bool_decide. Qed.

Lemma linked_nil cid (us : list User) : linked cid [] <$> us = us.
Proof.
  rewrite <-(list_fmap_id us) at 2. apply list_fmap_ext. intros i u _.
  unfold linked. rewrite bool_decide_eq_false_2; [done|]. by intros ?%elem_of_nil.
Qed.

Lemma linked_snoc_other cid l e u :
  (email u = e → e ∈ l) → linked cid (l ++ [e]) u = linked cid l u.
Proof.
  intros He. unfold linked.
  apply (f_equal (λ b : bool, if b then add_chat cid u else u)).
  apply bool_decide_ext. rewrite elem_of_app, list_elem_of_singleton.
  split; [|tauto]. intros [?|Heq]; [done|]. rewrite Heq. auto.
Qed.

Lemma User_findOne_linked cid l e (us : list User) cs n :
  User_findOne e (mkDB (linked cid l <$> us) cs n)
  = prod_map id (linked cid l) <$> User_findOne e (mkDB us cs n).
Proof.
  unfold User_findOne. simpl. rewrite list_find_fmap. f_equal.
  apply list_find_ext. intros u. simpl. by rewrite linked_email.
Qed.

(** One iteration of the linking loop, on unique emails and a chat id
    that is new to every user. *)
Lemma link_participant_linked cid l e (us : list User) cs n :
  NoDup (email <$> us) → (∀ u, u ∈ us → cid ∉ chats u) →
  link_participant cid (mkDB (linked cid l <$> us) cs n) e
  = mkDB (linked cid (l ++ [e]) <$> us) cs n.
Proof.
  intros Hnd Hfresh. unfold link_participant. rewrite User_findOne_linked.
  destruct (User_findOne e (mkDB us cs n)) as [[i u]|] eqn:Hf; simpl.
  - apply User_findOne_Some_email in Hf as [He Hi]. simpl in Hi.
    pose proof (list_elem_of_lookup_2 _ _ _ Hi) as Hu.
    assert (∀ j v, us !! j = Some v → j ≠ i → email v ≠ e) as Hother.
    { intros j v Hj Hne Hv. apply Hne.
      apply (NoDup_lookup (email <$> us) j i e Hnd);
        rewrite list_lookup_fmap; [rewrite Hj|rewrite Hi]; simpl; congruence. }
    destruct (decide (e ∈ l)) as [Hin|Hin].
    + rewrite bool_decide_eq_true_2.
      * f_equal. symmetry. apply list_fmap_ext. intros j v _.
        by apply linked_snoc_other.
      * unfold linked. rewrite bool_decide_eq_true_2 by by rewrite He.
        simpl. apply elem_of_app. right. by left.
    + assert (linked cid l u = u) as Hlu.
      { unfold linked. by rewrite bool_decide_eq_false_2 by by rewrite He. }
      rewrite Hlu. rewrite bool_decide_eq_false_2 by by apply Hfresh.
      simpl. f_equal. apply list_eq. intros j.
      destruct (decide (j = i)) as [->|Hne].
      * rewrite list_lookup_insert_eq.
        -- rewrite list_lookup_fmap, Hi. simpl. f_equal. unfold linked.
           rewrite bool_decide_eq_true_2; [done|].
           rewrite He. apply elem_of_app. right. by left.
        -- rewrite length_fmap. by eapply lookup_lt_Some.
      * rewrite list_lookup_insert_ne by done. rewrite !list_lookup_fmap.
        destruct (us !! j) as [v|] eqn:Hj; [|done]. simpl. f_equal.
        symmetry. apply linked_snoc_other. intros Hv.
        by destruct (Hother j v Hj Hne).
  - f_equal. symmetry. apply list_fmap_ext. intros j v Hj.
    apply linked_snoc_other. intros Hv.
    apply User_findOne_None in Hf. destruct Hf. simpl. rewrite <-Hv.
    apply list_elem_of_fmap_2. by eapply list_elem_of_lookup_2.
Qed.

Lemma links_linked cid l ps (us : list User) cs n :
  NoDup (email <$> us) → (∀ u, u ∈ us → cid ∉ chats u) →
  foldl (link_participant cid) (mkDB (linked cid l <$> us) cs n) ps
  = mkDB (linked cid (l ++ ps) <$> us) cs n.
Proof.
  intros Hnd Hfresh. revert l. induction ps as [|e ps IH]; intros l; simpl.
  - by rewrite app_nil_r.
  - rewrite link_participant_linked by done. rewrite IH.
    by rewrite <-app_assoc.
Qed.

(** In a well-formed database the next id is listed by no user. *)
Lemma wf_next_id_unlinked db u :
  wf_db db → u ∈ db_users db → db_next_id db ∉ chats u.
Proof.
  intros Hwf Hu Hin.
  destruct (wf_links _ Hwf u _ Hu Hin) as (c & Hc & Hid & _).
  apply (wf_ids_bound _ Hwf) in Hc. lia.
Qed.

Lemma findOrCreateChat_fresh_db ps db :
  wf_db db → Chat_findOne ps db = None →
  findOrCreateChat ps db
  = (mkChat (db_next_id db) ps [],
     mkDB (linked (db_next_id db) ps <$> db_users db)
       (db_chats db ++ [mkChat (db_next_id db) ps []]) (S (db_next_id db))).
Proof.
  intros Hwf Hf. unfold findOrCreateChat. rewrite Hf. f_equal. simpl.
  rewrite <-(linked_nil (db_next_id db) (db_users db)) at 1.
  rewrite links_linked; [done|apply Hwf|]. intros u Hu.
  by apply wf_next_id_unlinked.
Qed.

(** X9.  When no stored chat matches, [create_chat] stores one new chat,
    with the requested participants in the caller's order and no message,
    after the chats already stored, and pushes its id once on the [chats]
    list of every user whose email is among the participants, however
    often the email is repeated in the request; every other user document
    is left as it is. *)
Theorem fresh_chat_links_participants ps db c db1 :
  wf_db db → Chat_findOne ps db = None → findOrCreateChat ps db = (c, db1) →
  participants c = ps ∧ messages c = []
  ∧ db_chats db1 = db_chats db ++ [c]
  ∧ (∀ i u, db_users db !! i = Some u →
       db_users db1 !! i
       = Some (if bool_decide (email u ∈ ps)
               then mkUser (email u) (password u) (chats u ++ [_id c]) else u))
  ∧ length (db_users db1) = length (db_users db)
  ∧ (∀ u, u ∈ db_users db → _id c ∉ chats u).
Proof.
  intros Hwf Hf Hfc. rewrite findOrCreateChat_fresh_db in Hfc by done.
  injection Hfc as <- <-. simpl. split_and!; [done|done|done| | |].
  - intros i u Hi. by rewrite list_lookup_fmap, Hi.
  - by rewrite length_fmap.
  - intros u Hu. by apply wf_next_id_unlinked.
Qed.

(** X10.  When no stored chat matches, every participant that is a
    registered user is pushed, on the room of its email, a chat list that
    contains the new chat, with the other participants and the
    placeholder as last message. *)
Theorem fresh_chat_is_pushed sock ps db e i u :
  wf_db db → Chat_findOne ps db = None →
  e ∈ ps → User_findOne e db = Some (i, u) →
  ∃ l, io_to (UserRoom e) (chatlist_updated l) ∈ (create_chat sock ps db).2
       ∧ mkSummary (db_next_id db) (filter (λ p, p ≠ e) ps) Placeholder ∈ l.
Proof.
  intros Hwf Hf He Hu. unfold create_chat.
  rewrite findOrCreateChat_fresh_db by done.
  set (cid := db_next_id db).
  set (db1 := mkDB _ _ _).
  assert (User_findOne e db1 = Some (i, add_chat cid u)) as Hu1.
  { unfold db1. rewrite User_findOne_linked.
    unfold User_findOne in *. simpl. rewrite Hu. simpl. f_equal. f_equal.
    apply list_find_Some in Hu as (_ & Hemail & _).
    unfold linked. by rewrite bool_decide_eq_true_2 by by rewrite Hemail. }
  exists (chatList e (add_chat cid u) db1). simpl. split.
  - apply elem_of_app. left. apply elem_of_pushes. by exists e, i, (add_chat cid u).
  - apply elem_of_chatList. exists (mkChat cid ps []). split_and!.
    + simpl. apply elem_of_app. right. by left.
    + simpl. apply elem_of_app. right. by left.
    + done.
Qed.

Lemma before_chat_wf : wf_db (hub_db before_chat).
Proof. apply (@reachable_wf toy_crypto). apply @reachable_run. constructor. Qed.

Lemma fresh_chat_links_participants_witness :
  ∃ c db1,
    findOrCreateChat [u1; u2; u1] (hub_db before_chat) = (c, db1)
    ∧ db_chats db1 = [c]
    ∧ db_users db1 !! 0 = Some (mkUser u1 (Some "$2b$pw") [_id c]).
Proof.
  destruct (findOrCreateChat [u1; u2; u1] (hub_db before_chat)) as [c db1] eqn:E.
  destruct (fresh_chat_links_participants [u1; u2; u1] (hub_db before_chat) c db1
              before_chat_wf eq_refl E) as (_ & _ & Hchats & Husers & _).
  exists c, db1. split_and!; [done|exact Hchats|].
  exact (Husers 0 (mkUser u1 (Some "$2b$pw") []) eq_refl).
Defined.

Lemma fresh_chat_is_pushed_witness :
  ∃ l, io_to (UserRoom u1) (chatlist_updated l)
         ∈ (create_chat 1 [u1; u2] (hub_db before_chat)).2
       ∧ mkSummary 0 [u2] Placeholder ∈ l.
Proof.
  apply (fresh_chat_is_pushed 1 [u1; u2] (hub_db before_chat) u1 0
           (mkUser u1 (Some "$2b$pw") []) before_chat_wf eq_refl);
    [by left|reflexivity].
Defined.

(** ** A participant named twice *)

(** X11.  The match of [create_chat] counts the request's entries, not
    its distinct emails: a request naming one email twice finds any stored
    two-participant chat that has this email, whoever the other
    participant is; it returns the first such chat in the order of the
    collection and creates nothing. *)
Theorem repeated_participant_matches_pair a db c :
  c ∈ db_chats db → a ∈ participants c → length (participants c) = 2 →
  ∃ i c', findOrCreateChat [a; a] db = (c', db)
          ∧ db_chats db !! i = Some c'
          ∧ a ∈ participants c' ∧ length (participants c') = 2
          ∧ (∀ j c0, db_chats db !! j = Some c0 → j < i →
               ¬ (a ∈ participants c0 ∧ length (participants c0) = 2)).
Proof.
  intros Hc Ha Hlen.
  assert (∀ c0, chat_matches [a; a] c0 ↔
                a ∈ participants c0 ∧ length (participants c0) = 2) as Hpair.
  { intros c0. rewrite chat_matches_spec. split.
    - intros (_ & Hsub & Hl). split; [apply Hsub; by left|done].
    - intros [Hin Hl]. split_and!; [done| |done].
      intros p Hp. repeat (apply elem_of_cons in Hp as [->|Hp]); try done.
      by apply elem_of_nil in Hp. }
  destruct (list_find_elem_of (chat_matches [a; a]) _ c Hc) as [[i c'] Hf].
  { by apply Hpair. }
  exists i, c'. unfold findOrCreateChat, Chat_findOne. rewrite Hf.
  apply list_find_Some in Hf as (Hi & Hm & Hfirst).
  apply Hpair in Hm as [Hin Hl].
  split_and!; [done..|].
  intros j c0 Hj Hlt Hc0. apply (Hfirst j c0 Hj Hlt). by apply Hpair.
Qed.

Lemma repeated_participant_matches_pair_witness :
  ∃ i c', findOrCreateChat [u1; u1] (hub_db one_chat) = (c', hub_db one_chat)
          ∧ db_chats (hub_db one_chat) !! i = Some c'
          ∧ u1 ∈ participants c' ∧ length (participants c') = 2
          ∧ (∀ j c0, db_chats (hub_db one_chat) !! j = Some c0 → j < i →
               ¬ (u1 ∈ participants c0 ∧ length (participants c0) = 2)).
Proof.
  apply (repeated_participant_matches_pair u1 (hub_db one_chat)
           (mkChat 0 [u1; u2] [])); [by left|by left|reflexivity].
Defined.

(** ** Sequences of messages *)

Lemma list_find_insert_other {A} (P : A → Prop) `{∀ x, Decision (P x)}
    (l : list A) i x y :
  l !! i = Some y → ¬ P y → ¬ P x → list_find P (<[i:=x]> l) = list_find P l.
Proof.
  revert i. induction l as [|z l IH]; intros [|i] Hi Hy Hx; simplify_eq/=.
  - by rewrite !decide_False.
  - by rewrite (IH i).
Qed.

Lemma Chat_findById_send_other cid cid' sender text t_push t_emit db :
  cid ≠ cid' →
  Chat_findById cid' (send_message cid sender text t_push t_emit db).1
  = Chat_findById cid' db.
Proof.
  intros Hne. unfold send_message.
  destruct (Chat_findById cid db) as [[i c]|] eqn:Hf; [|done].
  apply list_find_Some in Hf as (Hi & Hid & _).
  unfold Chat_findById. simpl.
  apply (list_find_insert_other _ _ _ _ c); [done|congruence|simpl; congruence].
Qed.

Section sequences.
Context `{Crypto}.

Lemma send_request_step sock cid t_emit m h i c :
  Chat_findById cid (hub_db h) = Some (i, c) →
  Chat_findById cid (hub_db (handle (send_request sock cid t_emit m) h).1)
  = Some (i, mkChat (_id c) (participants c) (messages c ++ [m]))
  ∧ db_users (hub_db (handle (send_request sock cid t_emit m) h).1)
    = db_users (hub_db h)
  ∧ hub_rooms (handle (send_request sock cid t_emit m) h).1 = hub_rooms h.
Proof.
  intros Hf.
  destruct (send_message_persists cid (sender m) (text m) (timestamp m)
              (t_emit m) (hub_db h) i c Hf) as [Hrun Hfind].
  unfold send_request. simpl. unfold on_send_message. simpl.
  rewrite Hrun in Hfind |- *. simpl. by destruct m.
Qed.

(** X12.  Messages sent one after the other to an existing chat are
    stored after the messages it had, in the order they were sent, each
    with the clock of its own storing; the chat keeps its position, id and
    participants, no user and no room changes, and the last message of the
    chat is the last one sent. *)
Theorem sends_append_in_order sock cid t_emit ms h i c :
  Chat_findById cid (hub_db h) = Some (i, c) →
  let h' := run (send_request sock cid t_emit <$> ms) h in
  Chat_findById cid (hub_db h')
  = Some (i, mkChat (_id c) (participants c) (messages c ++ ms))
  ∧ db_users (hub_db h') = db_users (hub_db h)
  ∧ hub_rooms h' = hub_rooms h
  ∧ (∀ m, last ms = Some m →
       last_message (mkChat (_id c) (participants c) (messages c ++ ms)) = Sent m).
Proof.
  intros Hf h'. subst h'.
  assert (∀ m, last ms = Some m →
            last_message (mkChat (_id c) (participants c) (messages c ++ ms))
            = Sent m) as Hlast.
  { intros m Hm. rewrite last_message_last. simpl. by rewrite last_app, Hm. }
  cut (Chat_findById cid (hub_db (run (send_request sock cid t_emit <$> ms) h))
       = Some (i, mkChat (_id c) (participants c) (messages c ++ ms))
       ∧ db_users (hub_db (run (send_request sock cid t_emit <$> ms) h))
         = db_users (hub_db h)
       ∧ hub_rooms (run (send_request sock cid t_emit <$> ms) h) = hub_rooms h).
  { intros (? & ? & ?). by split_and!. }
  clear Hlast. revert h c Hf. induction ms as [|m ms IH]; intros h c Hf.
  - simpl. rewrite app_nil_r. by destruct c.
  - destruct (send_request_step sock cid t_emit m h i c Hf) as (Hf1 & Hu1 & Hr1).
    destruct (IH _ _ Hf1) as (Hf2 & Hu2 & Hr2).
    change (run (send_request sock cid t_emit <$> m :: ms) h)
      with (run (send_request sock cid t_emit <$> ms)
              (handle (send_request sock cid t_emit m) h).1).
    rewrite Hf2, Hu2, Hr2, Hu1, Hr1. simpl. by rewrite <-app_assoc.
Qed.

(** X13.  Messages sent to two different chats do not interfere: in
    either order of the two [send_message] events the database is the
    same. *)
Theorem sends_to_distinct_chats_commute
    cid1 sender1 text1 t_push1 t_emit1 cid2 sender2 text2 t_push2 t_emit2 db :
  cid1 ≠ cid2 →
  (send_message cid2 sender2 text2 t_push2 t_emit2
     (send_message cid1 sender1 text1 t_push1 t_emit1 db).1).1
  = (send_message cid1 sender1 text1 t_push1 t_emit1
       (send_message cid2 sender2 text2 t_push2 t_emit2 db).1).1.
Proof.
  intros Hne.
  pose proof (Chat_findById_send_other cid1 cid2 sender1 text1 t_push1 t_emit1
                db Hne) as H12.
  pose proof (Chat_findById_send_other cid2 cid1 sender2 text2 t_push2 t_emit2
                db (not_eq_sym Hne)) as H21.
  unfold send_message at 1 3. rewrite H12, H21. unfold send_message.
  destruct (Chat_findById cid1 db) as [[i1 c1]|] eqn:Hf1;
    destruct (Chat_findById cid2 db) as [[i2 c2]|] eqn:Hf2; simpl; try done.
  f_equal. apply list_insert_insert_ne.
  apply list_find_Some in Hf1 as (Hi1 & Hid1 & _).
  apply list_find_Some in Hf2 as (Hi2 & Hid2 & _).
  intros ->. congruence.
Qed.
End sequences.

Lemma sends_append_in_order_witness :
  Chat_findById 0
    (hub_db (@run toy_crypto
               (send_request 1 0 (λ m, timestamp m + 3)%Z
                  <$> [mkMessage u1 "hi" 2000; mkMessage u2 "hello" 2500])
               one_chat))
  = Some (0, mkChat 0 [u1; u2] [mkMessage u1 "hi" 2000; mkMessage u2 "hello" 2500]).
Proof.
  apply (@sends_append_in_order toy_crypto 1 0 (λ m, timestamp m + 3)%Z
           [mkMessage u1 "hi" 2000; mkMessage u2 "hello" 2500] one_chat 0
           (mkChat 0 [u1; u2] [])).
  reflexivity.
Defined.

Lemma sends_to_distinct_chats_commute_witness :
  (send_message 1 u2 "b" 2500 2503
     (send_message 0 u1 "a" 2000 2003
        (findOrCreateChat [u1; u3] (hub_db one_chat)).2).1).1
  = (send_message 0 u1 "a" 2000 2003
       (send_message 1 u2 "b" 2500 2503
          (findOrCreateChat [u1; u3] (hub_db one_chat)).2).1).1.
Proof. apply sends_to_distinct_chats_commute. discriminate. Defined.

(** ** What every reachable state satisfies *)

Lemma links_nodup_link_participant cid db e :
  links_nodup db → links_nodup (link_participant cid db e).
Proof.
  intros Hnd. unfold link_participant.
  destruct (User_findOne e db) as [[i u]|] eqn:Hf; [|done].
  case_bool_decide as Hin; [done|].
  apply User_findOne_Some_email in Hf as [_ Hi].
  intros u' [->|Hu']%elem_of_insert_inv; [|by apply Hnd]. simpl.
  apply NoDup_app. split_and!.
  - apply Hnd. by eapply list_elem_of_lookup_2.
  - by intros x Hx ->%list_elem_of_singleton.
  - apply NoDup_singleton.
Qed.

Lemma links_nodup_links cid ps db :
  links_nodup db → links_nodup (foldl (link_participant cid) db ps).
Proof.
  revert db. induction ps as [|e ps IH]; intros db Hnd; [done|]. simpl.
  apply IH. by apply links_nodup_link_participant.
Qed.

Lemma links_nodup_findOrCreateChat ps db :
  links_nodup db → links_nodup (findOrCreateChat ps db).2.
Proof.
  intros Hnd. unfold findOrCreateChat.
  destruct (Chat_findOne ps db) as [[i c]|]; [done|]. simpl.
  by apply links_nodup_links.
Qed.

Section consistency.
Context `{Crypto}.

Lemma links_nodup_handle rq h :
  links_nodup (hub_db h) → links_nodup (hub_db (handle rq h).1).
Proof.
  intros Hnd. destruct rq; simpl; try done.
  - unfold register. destruct (_ || _); [done|].
    destruct (User_findOne e (hub_db h)); [done|]. simpl.
    intros u [Hu| ->%list_elem_of_singleton]%elem_of_app; [by apply Hnd|].
    apply NoDup_nil_2.
  - pose proof (login_db e pw now (hub_db h)) as Hl.
    destruct (login _ _ _ _); simpl in *. by subst.
  - pose proof (get_chatlist_db authorization now (hub_db h)) as Hl.
    destruct (get_chatlist _ _ _); simpl in *. by subst.
  - unfold on_send_message, send_message.
    by destruct (Chat_findById _ _) as [[i c]|].
  - unfold create_chat.
    pose proof (links_nodup_findOrCreateChat ps (hub_db h) Hnd).
    by destruct (findOrCreateChat _ _).
Qed.

(** X14.  When the requests are handled one after the other, each to
    its end before the next begins, every state reached from the empty
    database is consistent: no two users share an email; every user has a
    non-empty email and a non-empty password hash; no two chats share an
    id; every id in a user's [chats] names a stored chat that has the
    user's email among its participants; and no user lists a chat twice.
    (Handlers that overlap are outside this statement; the last section
    shows two registrations that overlap.) *)
Theorem reachable_store_consistent h :
  reachable h →
  NoDup (email <$> db_users (hub_db h))
  ∧ (∀ u, u ∈ db_users (hub_db h) →
       email u ≠ "" ∧ ∃ hash, password u = Some hash ∧ hash ≠ "")
  ∧ NoDup (_id <$> db_chats (hub_db h))
  ∧ (∀ u cid, u ∈ db_users (hub_db h) → cid ∈ chats u →
       ∃ c, c ∈ db_chats (hub_db h) ∧ _id c = cid ∧ email u ∈ participants c)
  ∧ (∀ u, u ∈ db_users (hub_db h) → NoDup (chats u)).
Proof.
  intros Hr. pose proof (reachable_wf h Hr) as Hwf. split_and!.
  - apply Hwf.
  - intros u Hu. split; [by apply Hwf|].
    pose proof (wf_passwords _ Hwf u Hu) as Hpw.
    destruct (password u) as [hash|]; [|done]. exists hash.
    split; [done|]. by apply bool_decide_eq_true in Hpw.
  - apply Hwf.
  - apply Hwf.
  - clear Hwf. induction Hr as [|h rq Hr IH]; [by intros u ?%elem_of_nil|].
    by apply links_nodup_handle.
Qed.
End consistency.

Lemma one_chat_reachable : @reachable toy_crypto one_chat.
Proof. do 2 apply @reachable_run. constructor. Qed.

Lemma reachable_store_consistent_witness :
  NoDup (email <$> db_users (hub_db (@run toy_crypto later_requests one_chat)))
  ∧ NoDup (_id <$> db_chats (hub_db (@run toy_crypto later_requests one_chat))).
Proof.
  destruct (@reachable_store_consistent toy_crypto
              (@run toy_crypto later_requests one_chat)
              (@reachable_run toy_crypto later_requests one_chat one_chat_reachable))
    as (Hemails & _ & Hids & _).
  by split.
Defined.

(** X15.  In a well-formed database a chat list never shows a chat
    twice: the chat ids of its entries are pairwise distinct, even when
    the user's [chats] list repeats an id. *)
Theorem chat_list_ids_distinct self u db :
  wf_db db → NoDup (chatId <$> chatList self u db).
Proof.
  intros Hwf. unfold chatList, Chat_find_in. rewrite <-list_fmap_compose.
  apply NoDup_fmap_2_strong.
  - intros c c' [_ Hc]%list_elem_of_filter [_ Hc']%list_elem_of_filter Hid.
    by apply (wf_id_inj db).
  - apply NoDup_filter. eapply NoDup_fmap_1. apply Hwf.
Qed.

Lemma chat_list_ids_distinct_witness :
  NoDup (chatId <$> chatList u1 (mkUser u1 None [0; 0; 0]) (hub_db one_chat)).
Proof. apply chat_list_ids_distinct. apply one_chat_wf. Defined.

(** ** Creating a chat that exists *)

(** X16.  Users are linked to a chat only when it is created: when a
    stored chat matches, [create_chat] leaves the database as it is, and a
    registered participant whose [chats] does not list the chat is pushed
    its chat list unchanged, without that chat. *)
Theorem found_chat_is_not_linked sock ps db i c e j u :
  Chat_findOne ps db = Some (i, c) →
  e ∈ ps → User_findOne e db = Some (j, u) → _id c ∉ chats u →
  (create_chat sock ps db).1 = db
  ∧ e ∈ participants c
  ∧ io_to (UserRoom e) (chatlist_updated (chatList e u db))
      ∈ (create_chat sock ps db).2
  ∧ (∀ s, s ∈ chatList e u db → chatId s ≠ _id c).
Proof.
  intros Hf He Hu Hnot. unfold create_chat, findOrCreateChat. rewrite Hf. simpl.
  split_and!; [done| | |].
  - apply list_find_Some in Hf as (_ & Hm & _).
    apply chat_matches_spec in Hm as (_ & Hsub & _). by apply Hsub.
  - apply elem_of_app. left. apply elem_of_pushes. by exists e, j, u.
  - intros s (c0 & _ & Hin & ->)%elem_of_chatList Hid. simpl in Hid.
    by rewrite Hid in Hin.
Qed.

Lemma found_chat_is_not_linked_witness :
  (create_chat 2 [u2; u1] (hub_db late_registration)).1 = hub_db late_registration
  ∧ u2 ∈ participants (mkChat 0 [u1; u2] [])
  ∧ io_to (UserRoom u2) (chatlist_updated [])
      ∈ (create_chat 2 [u2; u1] (hub_db late_registration)).2.
Proof.
  destruct (found_chat_is_not_linked 2 [u2; u1] (hub_db late_registration) 0
              (mkChat 0 [u1; u2] []) u2 1 (mkUser u2 (Some "$2b$pw") []))
    as (Hdb & Hpart & Hpush & _); [reflexivity|by left|reflexivity| |done].
  by intros ?%elem_of_nil.
Defined.

(** ** Subscribing twice *)

(** X17.  [register_socket] and [join_chat] are idempotent: handling
    the same subscription of the same connection a second time changes
    nothing, and neither event emits anything or touches the database. *)
Theorem subscribing_twice_changes_nothing `{Crypto} sock e cid h :
  handle (register_socket sock e) (handle (register_socket sock e) h).1
  = ((handle (register_socket sock e) h).1, Emits [])
  ∧ handle (join_chat sock cid) (handle (join_chat sock cid) h).1
    = ((handle (join_chat sock cid) h).1, Emits [])
  ∧ hub_db (handle (register_socket sock e) h).1 = hub_db h
  ∧ hub_db (handle (join_chat sock cid) h).1 = hub_db h.
Proof.
  simpl. by rewrite !join_idempotent.
Qed.

(** ** Registrations that overlap *)

Section overlap.
Context `{Crypto}.

(** X18.  [POST /register] is its check followed by its save on the
    same database, but nothing ties the two together: when two
    registrations of one email both pass the check before either saves,
    both are answered 201 and the email is stored twice; lookups by that
    email then find the user saved first. *)
Theorem overlapping_registrations_share_an_email e pw1 salt1 pw2 salt2 db :
  (∀ pw salt,
     register e pw salt db
     = match register_check e pw db with
       | Some r => (db, r)
       | None => register_save e pw salt db
       end)
  ∧ (register_check e pw1 db = None → register_check e pw2 db = None →
       let '(db1, r1) := register_save e pw1 salt1 db in
       let '(db2, r2) := register_save e pw2 salt2 db1 in
       status r1 = 201 ∧ status r2 = 201
       ∧ db_users db2
         = db_users db ++ [mkUser e (Some (bcrypt_hash pw1 10 salt1)) [];
                           mkUser e (Some (bcrypt_hash pw2 10 salt2)) []]
       ∧ ¬ NoDup (email <$> db_users db2)
       ∧ User_findOne e db2
         = Some (length (db_users db),
                 mkUser e (Some (bcrypt_hash pw1 10 salt1)) [])).
Proof.
  split.
  - intros pw salt. unfold register, register_check, register_save.
    destruct (_ || _); [done|]. by destruct (User_findOne e db).
  - intros Hc1 _. simpl.
    assert (User_findOne e db = None) as Hnone.
    { unfold register_check in Hc1. destruct (_ || _); [done|].
      by destruct (User_findOne e db). }
    split_and!; [done|done|by rewrite <-app_assoc| |].
    + rewrite <-app_assoc, fmap_app. simpl. intros Hnd.
      apply NoDup_app in Hnd as (_ & _ & Hnd).
      apply NoDup_cons in Hnd as [Hin _]. apply Hin. by left.
    + unfold User_findOne in *. simpl. rewrite <-app_assoc.
      rewrite list_find_app_r by done. simpl. by rewrite decide_True.
Qed.
End overlap.

Lemma overlapping_registrations_share_an_email_witness :
  let '(db1, r1) := @register_save toy_crypto u2 "pw" "salt2" (hub_db one_chat) in
  let '(db2, r2) := @register_save toy_crypto u2 "other" "salt3" db1 in
  status r1 = 201 ∧ status r2 = 201
  ∧ ¬ NoDup (email <$> db_users db2)
  ∧ User_findOne u2 db2 = Some (1, mkUser u2 (Some "$2b$pw") []).
Proof.
  destruct (@overlapping_registrations_share_an_email toy_crypto u2 "pw" "salt2"
              "other" "salt3" (hub_db one_chat)) as [_ Hrace].
  specialize (Hrace eq_refl eq_refl). simpl in Hrace.
  destruct Hrace as (H1 & H2 & _ & Hdup & Hfind).
  split_and!; [exact H1|exact H2|exact Hdup|exact Hfind].
Defined.
